(** * TokenList: the class-list value of a view element

    A shallow embedding of
    [packages/ckeditor5-engine/src/view/tokenlist.ts] and of the two
    JavaScript built-ins it relies on, [String.prototype.split] with the
    separator [/\s+/] and the insertion-ordered [Set].

    - A JavaScript string is a sequence of UTF-16 code units: [list N].
    - A [Set<string>] is the list of its elements in insertion order.
    - A method that mutates [this] is a function from the old state of
      [this] to the new one; methods that touch two objects also have a
      version over a store of objects addressed by reference. *)

From Stdlib Require Import NArith String Ascii.
From stdpp Require Import base option list gmap.

Local Open Scope N_scope.

(** ** JavaScript strings *)

Module JS.

Abbreviation jsstring := (list N).

(** The code units of an ASCII literal, for readable examples. *)
Definition str (s : string) : jsstring :=
  map N_of_ascii (list_ascii_of_string s).

(** The characters matched by [\s]: WhiteSpace and LineTerminator of
    ECMAScript (TAB, LF, VT, FF, CR, SP, NBSP, U+1680, U+2000..U+200A,
    U+2028, U+2029, U+202F, U+205F, U+3000, U+FEFF). *)
Definition is_whitespace (c : N) : bool :=
  (c =? 9) || (c =? 10) || (c =? 11) || (c =? 12) || (c =? 13) ||
  (c =? 32) || (c =? 160) || (c =? 5760) ||
  ((8192 <=? c) && (c <=? 8202)) ||
  (c =? 8232) || (c =? 8233) || (c =? 8239) || (c =? 8287) ||
  (c =? 12288) || (c =? 65279).

(** [if ( token )]: a string is truthy unless it is empty. *)
Definition truthy (s : jsstring) : bool :=
  match s with
  | [] => false
  | _ :: _ => true
  end.

(** [s.split( /\s+/ )].  The scan keeps the fragment read so far; a
    whitespace character closes the fragment, and the rest of that
    whitespace run ([in_sep]) is consumed by the same match of [\s+].
    The fragment open at the end of the input is always emitted, so the
    empty string gives [[""]] and leading or trailing whitespace gives
    an empty first or last fragment. *)
Fixpoint split_from (in_sep : bool) (frag s : jsstring) : list jsstring :=
  match s with
  | [] => [frag]
  | c :: s' =>
      if is_whitespace c then
        if in_sep then split_from true [] s'
        else frag :: split_from true [] s'
      else split_from false (frag ++ [c]) s'
  end.

Definition split_ws (s : jsstring) : list jsstring := split_from false [] s.

(** [parts.join( ' ' )]. *)
Fixpoint join_sp (parts : list jsstring) : jsstring :=
  match parts with
  | [] => []
  | [p] => p
  | p :: rest => p ++ 32 :: join_sp rest
  end.

(** *** [Set<string>], in insertion order *)

Definition Set_has (s : list jsstring) (x : jsstring) : bool :=
  bool_decide (x ∈ s).

(** [s.add( x )]: an element already present keeps its place. *)
Definition Set_add (s : list jsstring) (x : jsstring) : list jsstring :=
  if Set_has s x then s else s ++ [x].

(** [s.delete( x )]. *)
Definition Set_delete (s : list jsstring) (x : jsstring) : list jsstring :=
  filter (λ y, y ≠ x) s.

(** [new Set( iterable )]. *)
Definition Set_from (l : list jsstring) : list jsstring :=
  fold_left Set_add l [].

(** *** [RegExp] objects

    A regular expression is an object: its [g] and [y] flags, the
    matcher compiled from its pattern, and the mutable [lastIndex].
    [exec s i] is the outcome of the matcher run of RegExpBuiltinExec
    entered at index [i] of [s]: the end index of the match found
    (looking forward from [i], or at [i] exactly when the expression is
    sticky), or [None]. *)
Record RegExp := mkRegExp {
  global : bool;
  sticky : bool;
  exec : jsstring → nat → option nat;
  lastIndex : nat
}.

Definition with_lastIndex (r : RegExp) (i : nat) : RegExp :=
  mkRegExp (global r) (sticky r) (exec r) i.

Definition found (o : option nat) : bool :=
  match o with
  | Some _ => true
  | None => false
  end.

(** [s.match( r )], as a truth value, with the state of [r] after the
    call.  With [g] the call sets [lastIndex] to 0, collects all
    matches and leaves [lastIndex] at 0.  Without [g] it is one run of
    [exec]: a sticky expression starts at [lastIndex] and moves it to
    the end of the match, or to 0 when there is none; any other
    expression starts at 0 and leaves [lastIndex] alone. *)
Definition String_match (s : jsstring) (r : RegExp) : bool * RegExp :=
  if global r then (found (exec r s 0), with_lastIndex r 0)
  else if sticky r then
    match (if Nat.ltb (length s) (lastIndex r) then None
           else exec r s (lastIndex r)) with
    | Some e => (true, with_lastIndex r e)
    | None => (false, with_lastIndex r 0)
    end
  else (found (exec r s 0), r).

(** The expression [/c/] for one character [c], with the given flags;
    used in examples. *)
Fixpoint find_char (c : N) (s : jsstring) (pos : nat) : option nat :=
  match s with
  | [] => None
  | d :: s' => if d =? c then Some (S pos) else find_char c s' (S pos)
  end.

Definition RegExp_char (c : N) (g y : bool) : RegExp :=
  mkRegExp g y
    (λ s i,
       if y then
         match s !! i with
         | Some d => if d =? c then Some (S i) else None
         | None => None
         end
       else find_char c (drop i s) i)
    0.

End JS.

Import JS.

(** ** The class *)

(** [ArrayOrItem<string>] of ckeditor5-utils. *)
Inductive ArrayOrItem :=
  | Item (x : jsstring)
  | Items (xs : list jsstring).

(** Modelled from the spec: [toArray] of ckeditor5-utils is imported by
    the class but defined outside the files at hand; an array is
    returned as it is and a single item becomes a one-element array. *)
Definition toArray (data : ArrayOrItem) : list jsstring :=
  match data with
  | Item x => [x]
  | Items xs => xs
  end.

(** The argument [patternToken : true | string | RegExp]. *)
Inductive Pattern :=
  | PTrue
  | PString (p : jsstring)
  | PRegExp (r : RegExp).

Module TokenList.

Record t := mk { _set : list jsstring }.

(** [new TokenList()] *)
Definition new : t := mk [].

Definition isEmpty (this : t) : bool := Nat.eqb (length (_set this)) 0.

Definition size (this : t) : nat := length (_set this).

Definition has (this : t) (name : jsstring) : bool := Set_has (_set this) name.

Definition keys (this : t) : list jsstring := _set this.

Definition clear (this : t) : t := mk [].

Fixpoint setTo_loop (s : list jsstring) (tokens : list jsstring) : list jsstring :=
  match tokens with
  | [] => s
  | token :: rest =>
      if truthy token then setTo_loop (Set_add s token) rest
      else setTo_loop s rest
  end.

Definition setTo (this : t) (value : jsstring) : t :=
  let this := clear this in
  mk (setTo_loop (_set this) (split_ws value)).

Fixpoint set_loop (s : list jsstring) (tokens : list jsstring) : list jsstring :=
  match tokens with
  | [] => s
  | token :: rest =>
      if truthy token then set_loop (Set_add s token) rest
      else set_loop s rest
  end.

Definition set (this : t) (tokens : ArrayOrItem) : t :=
  mk (set_loop (_set this) (toArray tokens)).

Fixpoint remove_loop (s : list jsstring) (tokens : list jsstring) : list jsstring :=
  match tokens with
  | [] => s
  | token :: rest => remove_loop (Set_delete s token) rest
  end.

Definition remove (this : t) (tokens : ArrayOrItem) : t :=
  mk (remove_loop (_set this) (toArray tokens)).

Definition toString (this : t) : jsstring := join_sp (_set this).

Fixpoint isSimilar_loop (other : t) (tokens : list jsstring) : bool :=
  match tokens with
  | [] => true
  | token :: rest =>
      if negb (has other token) then false
      else isSimilar_loop other rest
  end.

Definition isSimilar (this other : t) : bool :=
  if negb (Nat.eqb (size this) (size other)) then false
  else isSimilar_loop other (keys this).

Definition _clone (this : t) : t := mk (Set_from (_set this)).

(** The three loops of [_getTokensMatch]; [match_] is the array being
    built and [None] stands for [undefined]. *)
Fixpoint match_all (attributeKey : jsstring) (tokens : list jsstring)
    (match_ : list (jsstring * jsstring)) : list (jsstring * jsstring) :=
  match tokens with
  | [] => match_
  | token :: rest => match_all attributeKey rest (match_ ++ [(attributeKey, token)])
  end.

Fixpoint match_string (this : t) (attributeKey : jsstring) (tokens : list jsstring)
    (match_ : list (jsstring * jsstring)) : option (list (jsstring * jsstring)) :=
  match tokens with
  | [] => Some match_
  | token :: rest =>
      if has this token
      then match_string this attributeKey rest (match_ ++ [(attributeKey, token)])
      else None
  end.

Fixpoint match_regexp (patternToken : RegExp) (attributeKey : jsstring)
    (tokens : list jsstring) (match_ : list (jsstring * jsstring))
    : list (jsstring * jsstring) * RegExp :=
  match tokens with
  | [] => (match_, patternToken)
  | token :: rest =>
      let (matched, patternToken) := String_match token patternToken in
      if matched
      then match_regexp patternToken attributeKey rest (match_ ++ [(attributeKey, token)])
      else match_regexp patternToken attributeKey rest match_
  end.

Definition _getTokensMatch (this : t) (attributeKey : jsstring)
    (patternToken : Pattern) : option (list (jsstring * jsstring)) :=
  match patternToken with
  | PTrue => Some (match_all attributeKey (_set this) [])
  | PString p => match_string this attributeKey (split_ws p) []
  | PRegExp r =>
      let match_ := fst (match_regexp r attributeKey (_set this) []) in
      if Nat.eqb (length match_) 0 then None else Some match_
  end.

(** The regular expression object as [_getTokensMatch] leaves it. *)
Definition _getTokensMatch_regexp_after (this : t) (attributeKey : jsstring)
    (r : RegExp) : RegExp :=
  snd (match_regexp r attributeKey (_set this) []).

Definition _getConsumables (this : t) (name : option jsstring) : list jsstring :=
  match name with
  | Some n => if truthy n then [n] else keys this
  | None => keys this
  end.

Definition _canMergeFrom (this : t) : bool := true.

Fixpoint mergeFrom_loop (s : list jsstring) (tokens : list jsstring) : list jsstring :=
  match tokens with
  | [] => s
  | token :: rest =>
      if negb (Set_has s token) then mergeFrom_loop (Set_add s token) rest
      else mergeFrom_loop s rest
  end.

Definition _mergeFrom (this other : t) : t :=
  mk (mergeFrom_loop (_set this) (_set other)).

Fixpoint isMatching_loop (this : t) (names : list jsstring) : bool :=
  match names with
  | [] => true
  | name :: rest =>
      if negb (has this name) then false
      else isMatching_loop this rest
  end.

Definition _isMatching (this other : t) : bool :=
  isMatching_loop this (_set other).

End TokenList.

Import TokenList.

(** ** Two objects in one store

    [a._mergeFrom( b )] reads one object and writes another, and the two
    references may be the same object.  A store maps references to the
    state of the object they point to.  The loop adds a token only when
    [this] lacks it, so when [other] is [this] the set being iterated
    never grows during the iteration. *)

Module Store.

Definition _mergeFrom (this other : nat) (σ : gmap nat TokenList.t)
    : option (gmap nat TokenList.t) :=
  a ← σ !! this;
  b ← σ !! other;
  Some (<[this := TokenList._mergeFrom a b]> σ).

End Store.

(** ** Token lists and their sets as objects

    [_clone] makes a new [TokenList] and gives it a new [Set].  Whether
    a later write through the copy reaches the original depends on the
    two objects not sharing their [_set], so here the [Set] objects
    live in a heap of their own and a [TokenList] object holds the
    reference of its [_set]. *)

Module Heap.

Record heap := mkHeap {
  sets : gmap nat (list jsstring);
  lists : gmap nat nat
}.

(** [this.keys()] *)
Definition keys (this : nat) (h : heap) : option (list jsstring) :=
  s ← lists h !! this;
  sets h !! s.

(** [new TokenList()]: the field initialiser [_set = new Set()] runs. *)
Definition new (h : heap) : nat * heap :=
  let s := fresh (dom (sets h)) in
  let this := fresh (dom (lists h)) in
  (this, mkHeap (<[s := []]> (sets h)) (<[this := s]> (lists h))).

(** [this.set( tokens )]: the loop of the class on the set behind
    [this._set]. *)
Definition set (this : nat) (tokens : ArrayOrItem) (h : heap) : option heap :=
  s ← lists h !! this;
  elems ← sets h !! s;
  Some (mkHeap (<[s := TokenList.set_loop elems (toArray tokens)]> (sets h))
               (lists h)).

(** [this._clone()]: [clone] is a new object, and [clone._set] is then
    replaced by [new Set( this._set )]. *)
Definition _clone (this : nat) (h : heap) : option (nat * heap) :=
  s ← lists h !! this;
  elems ← sets h !! s;
  let (clone, h) := new h in
  let s' := fresh (dom (sets h)) in
  Some (clone, mkHeap (<[s' := Set_from elems]> (sets h))
                      (<[clone := s']> (lists h))).

End Heap.

(** ** The snippet filter of the documentation build

    [filterAllowedSnippets] of the snippet adapter works on a
    [Set<Snippet>].  Snippets are objects compared by reference: a
    reference is a [nat], [heap] gives the object behind a reference,
    and [requiredFor] holds the reference of another snippet or is
    [undefined].  [minimatch] is the glob matcher of the npm package of
    that name and is taken as it comes. *)

Module Snippets.

Record Snippet := mkSnippet {
  snippetName : jsstring;
  requiredFor : option nat
}.

Fixpoint starts_with (p s : jsstring) : bool :=
  match p, s with
  | [], _ => true
  | _ :: _, [] => false
  | a :: p', b :: s' => (a =? b) && starts_with p' s'
  end.

(** [s.includes( p )]: [p] occurs in [s] at some position. *)
Fixpoint includes (s p : jsstring) : bool :=
  starts_with p s ||
  match s with
  | [] => false
  | _ :: s' => includes s' p
  end.

Definition RefSet_has (s : list nat) (r : nat) : bool := bool_decide (r ∈ s).

Definition RefSet_add (s : list nat) (r : nat) : list nat :=
  if RefSet_has s r then s else s ++ [r].

Definition RefSet_delete (s : list nat) (r : nat) : list nat :=
  filter (λ y, y ≠ r) s.

(** [allowedSnippets.some( pattern => minimatch( name, pattern ) ||
    name.includes( pattern ) )] *)
Definition shouldBeBuilt (minimatch : jsstring → jsstring → bool)
    (allowedSnippets : list jsstring) (name : jsstring) : bool :=
  existsb (λ pattern, minimatch name pattern || includes name pattern) allowedSnippets.

(** First loop: the snippets that match a pattern. *)
Fixpoint matched_loop (minimatch : jsstring → jsstring → bool) (heap : nat → Snippet)
    (allowedSnippets : list jsstring) (todo snippetsToBuild : list nat) : list nat :=
  match todo with
  | [] => snippetsToBuild
  | snippetData :: rest =>
      if shouldBeBuilt minimatch allowedSnippets (snippetName (heap snippetData))
      then matched_loop minimatch heap allowedSnippets rest
             (RefSet_add snippetsToBuild snippetData)
      else matched_loop minimatch heap allowedSnippets rest snippetsToBuild
  end.

(** Second loop: the snippets required for a snippet that is built. *)
Fixpoint required_loop (heap : nat → Snippet) (todo snippetsToBuild : list nat)
    : list nat :=
  match todo with
  | [] => snippetsToBuild
  | snippetData :: rest =>
      if RefSet_has snippetsToBuild snippetData
      then required_loop heap rest snippetsToBuild
      else
        match requiredFor (heap snippetData) with
        | Some r =>
            if RefSet_has snippetsToBuild r
            then required_loop heap rest (RefSet_add snippetsToBuild snippetData)
            else required_loop heap rest snippetsToBuild
        | None => required_loop heap rest snippetsToBuild
        end
  end.

(** Third loop: [snippets] loses what is not built.  The loop visits
    the elements [snippets] had on entry; deleting the element being
    visited does not disturb the iteration of a [Set]. *)
Fixpoint delete_loop (snippetsToBuild todo snippets : list nat) : list nat :=
  match todo with
  | [] => snippets
  | snippetData :: rest =>
      if negb (RefSet_has snippetsToBuild snippetData)
      then delete_loop snippetsToBuild rest (RefSet_delete snippets snippetData)
      else delete_loop snippetsToBuild rest snippets
  end.

(** The function returns nothing and changes [snippets] in place; the
    result here is the new content of [snippets]. *)
Definition filterAllowedSnippets (minimatch : jsstring → jsstring → bool)
    (heap : nat → Snippet) (snippets : list nat) (allowedSnippets : list jsstring)
    : list nat :=
  let snippetsToBuild := matched_loop minimatch heap allowedSnippets snippets [] in
  let snippetsToBuild := required_loop heap snippets snippetsToBuild in
  delete_loop snippetsToBuild snippets snippets.

(** The step of [snippetAdapter] that calls the filter:
    [if ( allowedSnippets?.length ) filterAllowedSnippets( ... )]; the
    option is [undefined] when [None]. *)
Definition snippetAdapter_filter (minimatch : jsstring → jsstring → bool)
    (heap : nat → Snippet) (snippets : list nat)
    (allowedSnippets : option (list jsstring)) : list nat :=
  match allowedSnippets with
  | Some (pattern :: patterns) =>
      filterAllowedSnippets minimatch heap snippets (pattern :: patterns)
  | Some [] => snippets
  | None => snippets
  end.

End Snippets.

(** ** Notions used by the statements *)

(** A string without any whitespace character. *)
Definition ws_free (w : jsstring) : Prop :=
  Forall (λ c, is_whitespace c = false) w.

(** A string made of whitespace only (the empty string included). *)
Definition ws_only (w : jsstring) : Prop :=
  Forall (λ c, is_whitespace c = true) w.

(** The input without its leading whitespace. *)
Fixpoint skip_ws (s : jsstring) : jsstring :=
  match s with
  | [] => []
  | c :: s' => if is_whitespace c then skip_ws s' else s
  end.

(** [x] is a maximal run of non-whitespace characters of [s]: a
    non-empty whitespace-free factor of [s] bounded on each side by a
    whitespace character or by the end of [s]. *)
Definition maximal_run (x s : jsstring) : Prop :=
  ∃ pre post,
    s = pre ++ x ++ post ∧ x ≠ [] ∧ ws_free x ∧
    (∀ c, last pre = Some c → is_whitespace c = true) ∧
    (∀ c, head post = Some c → is_whitespace c = true).

(** The token lists that the public operations can build from the
    empty one.  [ok] restricts the tokens handed to [set]; with
    [λ _, True] every call is allowed. *)
Inductive Reachable (ok : jsstring → Prop) : TokenList.t → Prop :=
  | Reachable_new : Reachable ok new
  | Reachable_setTo l value :
      Reachable ok l → Reachable ok (setTo l value)
  | Reachable_set l tokens :
      Reachable ok l → Forall ok (toArray tokens) → Reachable ok (set l tokens)
  | Reachable_remove l tokens :
      Reachable ok l → Reachable ok (remove l tokens)
  | Reachable_clear l :
      Reachable ok l → Reachable ok (clear l)
  | Reachable_mergeFrom l other :
      Reachable ok l → Reachable ok other → Reachable ok (_mergeFrom l other)
  | Reachable_clone l :
      Reachable ok l → Reachable ok (_clone l).

Definition any_token : jsstring → Prop := λ _, True.

(** [token.match( r )] gives [null], from the [lastIndex] that [r]
    has and from [lastIndex] 0, where a failed match leaves a sticky
    expression; for an expression that is not sticky the index plays no
    part. *)
Definition no_match (r : RegExp) (token : jsstring) : Prop :=
  ∀ i, i = lastIndex r ∨ i = 0%nat →
    fst (String_match token (with_lastIndex r i)) = false.

(** An expression whose [match] does not depend on [lastIndex]: it
    has the [g] flag or lacks the [y] flag. *)
Definition stateless (r : RegExp) : Prop :=
  global r = true ∨ sticky r = false.

(** [p] split on its whitespace runs: [p] is the first fragment, or the
    first fragment followed by a non-empty run of whitespace and the
    rest, which does not start with whitespace; every fragment is free
    of whitespace.  The fragments before the first run and after the
    last one may be empty. *)
Inductive ws_split : jsstring → list jsstring → Prop :=
  | ws_split_last w :
      ws_free w → ws_split w [w]
  | ws_split_run w run rest frags :
      ws_free w → run ≠ [] → ws_only run →
      (∀ d, head rest = Some d → is_whitespace d = false) →
      ws_split rest frags →
      ws_split (w ++ run ++ rest) (w :: frags).

(** [p] occurs in [s]. *)
Definition factor_of (p s : jsstring) : Prop :=
  ∃ pre post, s = pre ++ p ++ post.

(** Some pattern of [allowedSnippets] accepts the snippet name: the
    glob matcher does, or the pattern occurs in the name. *)
Definition name_allowed (minimatch : jsstring → jsstring → bool)
    (allowedSnippets : list jsstring) (name : jsstring) : Prop :=
  ∃ pattern, pattern ∈ allowedSnippets ∧
    (minimatch name pattern = true ∨ factor_of pattern name).

Example split_empty : split_ws (str "") = [str ""].
Proof. reflexivity. Qed.

Example split_blank : split_ws (str "   ") = [str ""; str ""].
Proof. reflexivity. Qed.

Example split_padded : split_ws (str " a  b ") = [str ""; str "a"; str "b"; str ""].
Proof. reflexivity. Qed.

Example setTo_aba :
  let l := setTo new (str "a b a") in
  size l = 2%nat ∧ has l (str "a") = true ∧ has l (str "b") = true.
Proof. vm_compute. auto. Qed.

(** ** The built-ins *)

Section Split.

Lemma split_from_word frag w s :
  ws_free w → split_from false frag (w ++ s) = split_from false (frag ++ w) s.
Proof.
  intros Hw. revert frag.
  induction Hw as [|c w Hc _ IH]; intros frag; simpl.
  - by rewrite app_nil_r.
  - rewrite Hc, IH. by rewrite <- app_assoc.
Qed.

Lemma split_from_sep s : split_from true [] s = split_ws (skip_ws s).
Proof.
  induction s as [|c s IH]; simpl; [done|].
  unfold split_ws. destruct (is_whitespace c) eqn:Hc; simpl; [done|].
  by rewrite Hc.
Qed.

Lemma split_ws_word w : ws_free w → split_ws w = [w].
Proof.
  intros Hw. unfold split_ws.
  rewrite <- (app_nil_r w) at 1. by rewrite split_from_word.
Qed.

Lemma split_ws_word_sep w c s :
  ws_free w → is_whitespace c = true →
  split_ws (w ++ c :: s) = w :: split_ws (skip_ws s).
Proof.
  intros Hw Hc. unfold split_ws at 1.
  rewrite split_from_word by done. simpl. rewrite Hc.
  by rewrite split_from_sep.
Qed.

Lemma skip_ws_length s : (length (skip_ws s) ≤ length s)%nat.
Proof.
  induction s as [|c s IH]; simpl; [done|].
  destruct (is_whitespace c); simpl; lia.
Qed.

(** Every string is a word, or a word followed by a whitespace
    character and a rest. *)
Lemma first_sep s :
  ws_free s ∨ ∃ w c s', s = w ++ c :: s' ∧ ws_free w ∧ is_whitespace c = true.
Proof.
  induction s as [|c s IH].
  - left. constructor.
  - destruct (is_whitespace c) eqn:Hc.
    + right. exists [], c, s. repeat split; [constructor | done].
    + destruct IH as [Hs | (w & d & s' & -> & Hw & Hd)].
      * left. by constructor.
      * right. exists (c :: w), d, s'. repeat split; [by constructor | done].
Qed.

(** Induction along the fragments of [split_ws]. *)
Lemma split_ws_ind (P : jsstring → Prop) :
  (∀ w, ws_free w → P w) →
  (∀ w c s, ws_free w → is_whitespace c = true → P (skip_ws s) → P (w ++ c :: s)) →
  ∀ s, P s.
Proof.
  intros Hword Hsep s.
  induction s as [s IH] using (induction_ltof1 _ (@length N)). unfold ltof in IH.
  destruct (first_sep s) as [Hs | (w & c & s' & -> & Hw & Hc)]; [by apply Hword|].
  apply Hsep; [done..|]. apply IH.
  pose proof (skip_ws_length s'). rewrite length_app. simpl. lia.
Qed.

End Split.

Section SetLemmas.

Implicit Types (s l : list jsstring) (x y : jsstring).

Lemma Set_has_true s x : Set_has s x = true ↔ x ∈ s.
Proof. unfold Set_has. apply bool_decide_eq_true. Qed.

Lemma Set_has_false s x : Set_has s x = false ↔ x ∉ s.
Proof. unfold Set_has. apply bool_decide_eq_false. Qed.

Lemma elem_of_Set_add s x y : y ∈ Set_add s x ↔ y ∈ s ∨ y = x.
Proof.
  unfold Set_add. destruct (Set_has s x) eqn:H.
  - apply Set_has_true in H. split; [by left|]. by intros [?| ->].
  - rewrite elem_of_app, list_elem_of_singleton. tauto.
Qed.

Lemma NoDup_Set_add s x : NoDup s → NoDup (Set_add s x).
Proof.
  intros Hs. unfold Set_add. destruct (Set_has s x) eqn:H; [done|].
  apply Set_has_false in H. apply NoDup_app. split_and!; [done| |apply NoDup_singleton].
  intros y Hy Hx. apply list_elem_of_singleton in Hx. by subst.
Qed.

Lemma Forall_Set_add (Q : jsstring → Prop) s x :
  Forall Q s → Q x → Forall Q (Set_add s x).
Proof.
  intros Hs Hx. unfold Set_add. destruct (Set_has s x); [done|].
  apply Forall_app. split; [done|]. by constructor.
Qed.

Lemma elem_of_Set_delete s x y : y ∈ Set_delete s x ↔ y ∈ s ∧ y ≠ x.
Proof. unfold Set_delete. rewrite list_elem_of_filter. tauto. Qed.

Lemma NoDup_Set_delete s x : NoDup s → NoDup (Set_delete s x).
Proof. apply NoDup_filter. Qed.

Lemma Forall_Set_delete (Q : jsstring → Prop) s x :
  Forall Q s → Forall Q (Set_delete s x).
Proof.
  rewrite !Forall_forall. intros Hs y Hy.
  apply elem_of_Set_delete in Hy as [Hy _]. by apply Hs.
Qed.

Lemma Set_add_present s x : x ∈ s → Set_add s x = s.
Proof. intros H. unfold Set_add. by rewrite (proj2 (Set_has_true s x) H). Qed.

Lemma fold_Set_add_elem l s y : y ∈ fold_left Set_add l s ↔ y ∈ s ∨ y ∈ l.
Proof.
  revert s. induction l as [|x l IH]; intros s; simpl.
  - rewrite elem_of_nil. tauto.
  - rewrite IH, elem_of_Set_add, elem_of_cons. tauto.
Qed.

Lemma fold_Set_add_NoDup l s : NoDup s → NoDup (fold_left Set_add l s).
Proof.
  revert s. induction l as [|x l IH]; intros s Hs; simpl; [done|].
  apply IH. by apply NoDup_Set_add.
Qed.

Lemma fold_Set_add_fresh l s :
  NoDup (s ++ l) → fold_left Set_add l s = s ++ l.
Proof.
  revert s. induction l as [|x l IH]; intros s Hs; simpl.
  - by rewrite app_nil_r.
  - assert (x ∉ s) as Hx.
    { apply NoDup_app in Hs as (_ & Hd & _). intros Hin. apply (Hd x Hin). by left. }
    unfold Set_add at 2. rewrite (proj2 (Set_has_false s x) Hx).
    rewrite IH; rewrite <- app_assoc; done.
Qed.

Lemma Set_from_NoDup l : NoDup l → Set_from l = l.
Proof. intros H. unfold Set_from. by rewrite fold_Set_add_fresh. Qed.

Lemma Set_from_elem l y : y ∈ Set_from l ↔ y ∈ l.
Proof. unfold Set_from. rewrite fold_Set_add_elem, elem_of_nil. tauto. Qed.

End SetLemmas.

(** ** The loops of the class *)

Section Loops.

Implicit Types (s l tokens : list jsstring) (x y : jsstring).

Lemma truthy_true x : truthy x = true ↔ x ≠ [].
Proof. by destruct x. Qed.

Lemma setTo_loop_set_loop s tokens : setTo_loop s tokens = set_loop s tokens.
Proof.
  revert s. induction tokens as [|x l IH]; intros s; simpl; [done|].
  by rewrite !IH.
Qed.

Lemma set_loop_elem tokens s y :
  y ∈ set_loop s tokens ↔ y ∈ s ∨ (y ∈ tokens ∧ y ≠ []).
Proof.
  revert s. induction tokens as [|x l IH]; intros s; simpl.
  - rewrite elem_of_nil. tauto.
  - destruct x as [|c x]; simpl; rewrite IH, ?elem_of_Set_add, elem_of_cons.
    + split; [tauto|]. intros [?|[[->|?] ?]]; tauto.
    + split; [|tauto]. intros [[?| ->]|?]; [tauto| |tauto].
      right. split; [by left|done].
Qed.

Lemma set_loop_NoDup tokens s : NoDup s → NoDup (set_loop s tokens).
Proof.
  revert s. induction tokens as [|x l IH]; intros s Hs; simpl; [done|].
  destruct (truthy x); apply IH; [by apply NoDup_Set_add | done].
Qed.

Lemma set_loop_Forall (Q : jsstring → Prop) tokens s :
  Forall Q s → Forall (λ x, x ≠ [] → Q x) tokens → Forall Q (set_loop s tokens).
Proof.
  intros Hs Ht. revert s Hs.
  induction Ht as [|x l Hx _ IH]; intros s Hs; simpl; [done|].
  destruct (truthy x) eqn:E; apply IH; [|done].
  apply Forall_Set_add; [done|]. by apply Hx, truthy_true.
Qed.

Lemma remove_loop_elem tokens s y :
  y ∈ remove_loop s tokens ↔ y ∈ s ∧ y ∉ tokens.
Proof.
  revert s. induction tokens as [|x l IH]; intros s; simpl.
  - rewrite elem_of_nil. tauto.
  - rewrite IH, elem_of_Set_delete, not_elem_of_cons. tauto.
Qed.

Lemma remove_loop_NoDup tokens s : NoDup s → NoDup (remove_loop s tokens).
Proof.
  revert s. induction tokens as [|x l IH]; intros s Hs; simpl; [done|].
  by apply IH, NoDup_Set_delete.
Qed.

Lemma remove_loop_Forall (Q : jsstring → Prop) tokens s :
  Forall Q s → Forall Q (remove_loop s tokens).
Proof.
  revert s. induction tokens as [|x l IH]; intros s Hs; simpl; [done|].
  by apply IH, Forall_Set_delete.
Qed.

Lemma mergeFrom_loop_elem tokens s y :
  y ∈ mergeFrom_loop s tokens ↔ y ∈ s ∨ y ∈ tokens.
Proof.
  revert s. induction tokens as [|x l IH]; intros s; simpl.
  - rewrite elem_of_nil. tauto.
  - destruct (Set_has s x) eqn:E; simpl; rewrite IH, ?elem_of_Set_add, elem_of_cons.
    + apply Set_has_true in E. split; [tauto|]. intros [?|[->|?]]; tauto.
    + tauto.
Qed.

Lemma mergeFrom_loop_NoDup tokens s : NoDup s → NoDup (mergeFrom_loop s tokens).
Proof.
  revert s. induction tokens as [|x l IH]; intros s Hs; simpl; [done|].
  destruct (negb (Set_has s x)); apply IH; [by apply NoDup_Set_add | done].
Qed.

Lemma mergeFrom_loop_Forall (Q : jsstring → Prop) tokens s :
  Forall Q s → Forall Q tokens → Forall Q (mergeFrom_loop s tokens).
Proof.
  intros Hs Ht. revert s Hs.
  induction Ht as [|x l Hx _ IH]; intros s Hs; simpl; [done|].
  destruct (negb (Set_has s x)); apply IH; [by apply Forall_Set_add | done].
Qed.

(** Merging tokens that are all present already changes nothing. *)
Lemma mergeFrom_loop_present tokens s :
  Forall (λ x, x ∈ s) tokens → mergeFrom_loop s tokens = s.
Proof.
  induction 1 as [|x l Hx _ IH]; simpl; [done|].
  by rewrite (proj2 (Set_has_true s x) Hx).
Qed.

Lemma split_ws_ws_free value : Forall ws_free (split_ws value).
Proof.
  induction value as [w Hw | w c s Hw Hc IH] using split_ws_ind.
  - rewrite split_ws_word by done. by constructor.
  - rewrite split_ws_word_sep by done. by constructor.
Qed.

End Loops.

(** ** Fragments of [split_ws] and maximal runs *)

Section Runs.

Implicit Types (s w x pre post : jsstring) (c d : N).

Lemma ws_free_last_ws w :
  ws_free w → (∀ c, last w = Some c → is_whitespace c = true) → w = [].
Proof.
  intros Hw Hl. destruct (last w) as [c|] eqn:E; [|by apply last_None].
  pose proof (Hl c eq_refl) as Hc. apply last_Some_elem_of in E.
  unfold ws_free in Hw. rewrite Forall_forall in Hw. specialize (Hw c E). congruence.
Qed.

Lemma ws_free_head_ws w :
  ws_free w → (∀ c, head w = Some c → is_whitespace c = true) → w = [].
Proof.
  intros Hw Hh. destruct w as [|c w]; [done|].
  specialize (Hh c eq_refl). inversion Hw; congruence.
Qed.

Lemma maximal_run_word w x : ws_free w → maximal_run x w ↔ x = w ∧ w ≠ [].
Proof.
  intros Hw. split.
  - intros (pre & post & -> & Hne & Hx & Hl & Hr).
    apply Forall_app in Hw as [Hpre Hw]. apply Forall_app in Hw as [_ Hpost].
    rewrite (ws_free_last_ws pre), (ws_free_head_ws post) by done.
    simpl. by rewrite app_nil_r.
  - intros [-> Hne]. exists [], []. simpl. rewrite app_nil_r.
    split_and!; [done..| |]; by intros c.
Qed.

Lemma maximal_run_skip c s x :
  is_whitespace c = true → maximal_run x (c :: s) ↔ maximal_run x s.
Proof.
  intros Hc. split.
  - intros (pre & post & Heq & Hne & Hx & Hl & Hr). destruct pre as [|d pre].
    + destruct x as [|d x]; [done|]. simpl in Heq. injection Heq as <- _.
      inversion Hx; congruence.
    + simpl in Heq. injection Heq as <- ->. exists pre, post.
      split_and!; [done..| |done]. intros e He. apply Hl.
      rewrite last_cons. by rewrite He.
  - intros (pre & post & -> & Hne & Hx & Hl & Hr). exists (c :: pre), post.
    split_and!; [done..| |done]. intros e. rewrite last_cons.
    destruct (last pre) as [e'|] eqn:E; intros [= <-]; [by apply Hl | done].
Qed.

Lemma maximal_run_skip_ws s x : maximal_run x (skip_ws s) ↔ maximal_run x s.
Proof.
  induction s as [|c s IH]; simpl; [done|].
  destruct (is_whitespace c) eqn:Hc; [|done].
  by rewrite IH, maximal_run_skip.
Qed.

Lemma word_prefix_unique x w post c s :
  ws_free x → ws_free w → is_whitespace c = true →
  (∀ d, head post = Some d → is_whitespace d = true) →
  x ++ post = w ++ c :: s → x = w.
Proof.
  intros Hx. revert w. induction Hx as [|a x Ha _ IH]; intros w Hw Hc Hp Heq.
  - destruct w as [|b w]; [done|]. simpl in Heq. subst post.
    specialize (Hp b eq_refl). inversion Hw; congruence.
  - destruct w as [|b w]; simpl in Heq; injection Heq as -> Heq; [congruence|].
    f_equal. inversion Hw; subst. by apply IH.
Qed.

Lemma sep_in_prefix w c s pre rest :
  ws_free w → pre ≠ [] →
  (∀ d, last pre = Some d → is_whitespace d = true) →
  w ++ c :: s = pre ++ rest →
  ∃ pre', pre = w ++ c :: pre' ∧ s = pre' ++ rest.
Proof.
  intros Hw. revert pre. induction Hw as [|a w Ha _ IH]; intros pre Hne Hl Heq.
  - destruct pre as [|d pre]; [done|]. simpl in Heq. injection Heq as -> ->. by exists pre.
  - destruct pre as [|d pre]; [done|]. simpl in Heq. injection Heq as <- Heq.
    destruct (IH pre) as (pre' & -> & ->); [| |done|by exists pre'].
    + intros ->. specialize (Hl a eq_refl). congruence.
    + intros e He. apply Hl. rewrite last_cons. by rewrite He.
Qed.

Lemma maximal_run_sep w c s x :
  ws_free w → is_whitespace c = true →
  maximal_run x (w ++ c :: s) ↔ (x = w ∧ w ≠ []) ∨ maximal_run x s.
Proof.
  intros Hw Hc. split.
  - intros (pre & post & Heq & Hne & Hx & Hl & Hr). destruct (decide (pre = [])) as [->|Hpre].
    + left. simpl in Heq. symmetry in Heq.
      apply word_prefix_unique in Heq; [|done..]. by subst.
    + right. destruct (sep_in_prefix w c s pre (x ++ post)) as (pre' & -> & ->); [done..|].
      exists pre', post. split_and!; [done..| |done]. intros e He. apply Hl.
      rewrite last_app, last_cons. by rewrite He.
  - intros [[-> Hne] | (pre & post & -> & Hne & Hx & Hl & Hr)].
    + exists [], (c :: s). split_and!; [done..| |]; [by intros d|].
      by intros d [= <-].
    + exists (w ++ c :: pre), post. split_and!; [by rewrite <- app_assoc|done..| |done].
      intros e. rewrite last_app, last_cons.
      destruct (last pre) as [e'|] eqn:E; intros [= <-]; [by apply Hl | done].
Qed.

(** The non-empty fragments of [split_ws s] are the maximal runs of
    non-whitespace characters of [s]. *)
Lemma split_ws_runs s x : x ∈ split_ws s ∧ x ≠ [] ↔ maximal_run x s.
Proof.
  revert x. induction s as [w Hw | w c s Hw Hc IH] using split_ws_ind; intros x.
  - rewrite split_ws_word, list_elem_of_singleton, maximal_run_word by done.
    split; intros [-> ?]; done.
  - rewrite split_ws_word_sep, elem_of_cons, maximal_run_sep by done.
    rewrite <- (maximal_run_skip_ws s), <- IH.
    split; [intros [[->|?] ?]; tauto | intros [[-> ?]|[? ?]]; tauto].
Qed.

Lemma ws_only_no_run s x : ws_only s → ¬ maximal_run x s.
Proof.
  intros Hs (pre & post & -> & Hne & Hx & _).
  destruct x as [|c x]; [done|].
  apply Forall_app in Hs as [_ Hs]. apply Forall_app in Hs as [Hs _].
  inversion Hs; inversion Hx; congruence.
Qed.

Lemma split_ws_ws_only s : ws_only s → ∃ rest, split_ws s = [] :: rest.
Proof.
  intros Hs. destruct Hs as [|c s Hc _]; unfold split_ws; simpl; [by eexists|].
  rewrite Hc. by eexists.
Qed.

(** Re-splitting joined tokens gives the tokens back. *)
Lemma skip_ws_join tokens :
  Forall ws_free tokens → Forall (λ x, x ≠ []) tokens →
  skip_ws (join_sp tokens) = join_sp tokens.
Proof.
  intros Hw Hne. destruct tokens as [|[|c x] tokens]; [done| |].
  - by inversion Hne.
  - assert (is_whitespace c = false) as Hc.
    { inversion Hw as [|? ? Hx]; subst. by inversion Hx. }
    destruct tokens; simpl; by rewrite Hc.
Qed.

Lemma split_ws_join tokens :
  Forall ws_free tokens → Forall (λ x, x ≠ []) tokens → tokens ≠ [] →
  split_ws (join_sp tokens) = tokens.
Proof.
  intros Hw. induction Hw as [|x tokens Hx Hw IH]; intros Hne Hnil; [done|].
  destruct tokens as [|y tokens].
  - simpl. by apply split_ws_word.
  - change (join_sp (x :: y :: tokens)) with (x ++ 32 :: join_sp (y :: tokens)).
    inversion Hne; subst.
    rewrite split_ws_word_sep, skip_ws_join, IH by done. done.
Qed.

Lemma set_loop_fresh (tokens l : list jsstring) :
  NoDup (l ++ tokens) → Forall (λ x, x ≠ []) tokens →
  set_loop l tokens = l ++ tokens.
Proof.
  intros Hs Hne. revert l Hs.
  induction Hne as [|x tokens Hx _ IH]; intros s Hs; simpl.
  - by rewrite app_nil_r.
  - apply truthy_true in Hx. rewrite Hx.
    assert (x ∉ s) as Hxs.
    { apply NoDup_app in Hs as (_ & Hd & _). intros Hin. apply (Hd x Hin). by left. }
    unfold Set_add. rewrite (proj2 (Set_has_false s x) Hxs).
    rewrite IH; rewrite <- app_assoc; done.
Qed.

End Runs.

(** ** What the public operations preserve *)

Section Invariants.

Context (ok : jsstring → Prop).

Lemma reachable_NoDup l : Reachable ok l → NoDup (keys l).
Proof.
  induction 1 as [|l v _ _|l toks _ IH _|l toks _ IH|l _ _|l o _ IH _ _|l _ IH];
    unfold keys in *; simpl.
  - constructor.
  - rewrite setTo_loop_set_loop. apply set_loop_NoDup. constructor.
  - by apply set_loop_NoDup.
  - by apply remove_loop_NoDup.
  - constructor.
  - by apply mergeFrom_loop_NoDup.
  - by rewrite Set_from_NoDup.
Qed.

Lemma reachable_Forall (Q : jsstring → Prop) l :
  (∀ x, x ≠ [] → ws_free x → Q x) →
  (∀ x, x ≠ [] → ok x → Q x) →
  Reachable ok l → Forall Q (keys l).
Proof.
  intros Hsplit Hok.
  induction 1 as [|l v _ _|l toks _ IH Htoks|l toks _ IH|l _ _|l o _ IH _ IHo|l Hl IH];
    unfold keys in *; simpl.
  - constructor.
  - rewrite setTo_loop_set_loop. apply set_loop_Forall; [constructor|].
    eapply Forall_impl; [apply split_ws_ws_free|]. intros x Hx Hne. by apply Hsplit.
  - apply set_loop_Forall; [done|].
    eapply Forall_impl; [apply Htoks|]. intros x Hx Hne. by apply Hok.
  - by apply remove_loop_Forall.
  - constructor.
  - by apply mergeFrom_loop_Forall.
  - rewrite Set_from_NoDup; [done|]. by apply (reachable_NoDup l).
Qed.

Lemma reachable_no_empty_token l : Reachable ok l → [] ∉ keys l.
Proof.
  intros Hl Hin.
  pose proof (reachable_Forall (λ x, x ≠ []) l) as HF.
  rewrite Forall_forall in HF. by apply (HF ltac:(done) ltac:(done) Hl []).
Qed.

End Invariants.

(** C1 (as amended).  Every token list built from the empty one by
    [setTo], [set], [remove], [clear], [_mergeFrom] and [_clone] stores
    no token twice and no empty token; and when every token handed to
    [set] is free of whitespace, so is every stored token. *)
Theorem reachable_tokens_invariant (ok : jsstring → Prop) (l : TokenList.t) :
  Reachable ok l →
  NoDup (keys l) ∧
  (∀ x, x ∈ keys l → x ≠ []) ∧
  ((∀ x, ok x → ws_free x) → ∀ x, x ∈ keys l → ws_free x).
Proof.
  intros Hl. split_and!.
  - by apply (reachable_NoDup ok).
  - apply Forall_forall. by apply (reachable_Forall ok).
  - intros Hok. apply Forall_forall. apply (reachable_Forall ok); auto.
Qed.

Lemma reachable_tokens_invariant_witness :
  let l := set new (Items [str "x"; str "y"]) in
  Reachable ws_free l ∧
  NoDup (keys l) ∧
  (∀ x, x ∈ keys l → x ≠ []) ∧
  ((∀ x, ws_free x → ws_free x) → ∀ x, x ∈ keys l → ws_free x).
Proof.
  assert (Reachable ws_free (set new (Items [str "x"; str "y"]))) as H.
  { apply Reachable_set; [apply Reachable_new|].
    repeat constructor. }
  split; [exact H|].
  exact (reachable_tokens_invariant ws_free _ H).
Defined.

(** C1 as stated fails: [set] stores any non-empty token as it is, so
    a token with a space inside is stored by a single public call. *)
Lemma set_stores_whitespace_token :
  let l := set new (Item (str "a b")) in
  Reachable any_token l ∧ str "a b" ∈ keys l ∧ ¬ ws_free (str "a b").
Proof.
  split_and!.
  - apply Reachable_set; [apply Reachable_new|]. by repeat constructor.
  - vm_compute. by left.
  - intros H. unfold ws_free in H. rewrite Forall_forall in H.
    specialize (H 32). cut (is_whitespace 32 = false); [done|].
    apply H. vm_compute. right. by left.
Qed.

(** C9.  From the empty list, [set( [ 'x', 'y' ] )] followed by
    [remove( 'x' )] leaves the single token [y].  Both operations are
    total functions: there is no error outcome. *)
Theorem set_then_remove :
  let l := remove (set new (Items [str "x"; str "y"])) (Item (str "x")) in
  size l = 1%nat ∧ has l (str "y") = true ∧ has l (str "x") = false ∧
  keys l = [str "y"].
Proof. vm_compute. auto. Qed.

(** ** Matching *)

Section Matching.

Implicit Types (l : TokenList.t) (k x : jsstring) (tokens : list jsstring).

Lemma has_true l x : has l x = true ↔ x ∈ keys l.
Proof. apply Set_has_true. Qed.

Lemma has_false l x : has l x = false ↔ x ∉ keys l.
Proof. apply Set_has_false. Qed.

Lemma match_all_map k tokens acc :
  match_all k tokens acc = acc ++ map (λ x, (k, x)) tokens.
Proof.
  revert acc. induction tokens as [|x tokens IH]; intros acc; simpl.
  - by rewrite app_nil_r.
  - rewrite IH. by rewrite <- app_assoc.
Qed.

Lemma match_string_all l k tokens acc :
  Forall (λ x, x ∈ keys l) tokens →
  match_string l k tokens acc = Some (acc ++ map (λ x, (k, x)) tokens).
Proof.
  intros H. revert acc. induction H as [|x tokens Hx _ IH]; intros acc; simpl.
  - by rewrite app_nil_r.
  - apply has_true in Hx. rewrite Hx, IH. by rewrite <- app_assoc.
Qed.

Lemma match_string_some_absent l k tokens acc :
  ¬ Forall (λ x, x ∈ keys l) tokens → match_string l k tokens acc = None.
Proof.
  revert acc. induction tokens as [|x tokens IH]; intros acc H; simpl.
  - destruct H. constructor.
  - destruct (has l x) eqn:Hx; [|done]. apply has_true in Hx.
    apply IH. intros HF. apply H. by constructor.
Qed.

Lemma with_lastIndex_same (r : RegExp) : with_lastIndex r (lastIndex r) = r.
Proof. by destruct r. Qed.

Lemma String_match_fields x (r : RegExp) :
  global (String_match x r).2 = global r ∧
  sticky (String_match x r).2 = sticky r ∧
  exec (String_match x r).2 = exec r.
Proof.
  destruct r as [g y e i]. unfold String_match. simpl.
  destruct g, y; simpl; try done.
  by destruct (if Nat.ltb (length x) i then None else e x i).
Qed.

Lemma String_match_failed x (r : RegExp) :
  (String_match x r).1 = false →
  (String_match x r).2 = r ∨ (String_match x r).2 = with_lastIndex r 0.
Proof.
  destruct r as [g y e i]. unfold String_match. simpl.
  destruct g, y; simpl; try (by right); try (by left).
  destruct (if Nat.ltb (length x) i then None else e x i); [done|by right].
Qed.

Lemma String_match_stateless x (r : RegExp) :
  stateless r → (String_match x r).1 = found (exec r x 0).
Proof.
  destruct r as [g y e i]. unfold stateless, String_match. simpl.
  intros [->| ->]; [done|]. by destruct g.
Qed.

Lemma match_regexp_none (r : RegExp) k tokens acc :
  (∀ x, x ∈ tokens → no_match r x) → (match_regexp r k tokens acc).1 = acc.
Proof.
  revert r acc. induction tokens as [|x tokens IH]; intros r acc H; simpl; [done|].
  assert ((String_match x r).1 = false) as Hx.
  { rewrite <- (with_lastIndex_same r) at 1. apply (H x); [by left|by left]. }
  destruct (String_match_failed x r Hx) as [Hr|Hr];
    destruct (String_match x r) as [m r']; simpl in Hx, Hr; subst m r'.
  - apply IH. intros y Hy. apply H. by right.
  - apply IH. intros y Hy i Hi. apply (H y); [by right|].
    right. by destruct Hi.
Qed.

Lemma match_regexp_stateless (r r' : RegExp) k tokens acc :
  stateless r →
  global r' = global r → sticky r' = sticky r → exec r' = exec r →
  (match_regexp r' k tokens acc).1 =
    acc ++ map (λ x, (k, x)) (filter (λ x, found (exec r x 0) = true) tokens).
Proof.
  intros Hr. revert r' acc.
  induction tokens as [|x tokens IH]; intros r' acc Hg Hy He; simpl.
  - by rewrite app_nil_r.
  - assert (stateless r') as Hr' by (unfold stateless; by rewrite Hg, Hy).
    pose proof (String_match_stateless x r' Hr') as Hx.
    destruct (String_match_fields x r') as (Hg' & Hy' & He').
    destruct (String_match x r') as [m r'']. simpl in *. subst m.
    rewrite filter_cons, He. destruct (found (exec r x 0)) eqn:E.
    + rewrite decide_True by done. rewrite IH by congruence.
      simpl. by rewrite <- app_assoc.
    + rewrite decide_False by done. apply IH; congruence.
Qed.

Lemma match_regexp_sublist (r : RegExp) k tokens acc :
  ∃ m, m `sublist_of` tokens ∧
       (match_regexp r k tokens acc).1 = acc ++ map (λ x, (k, x)) m.
Proof.
  revert r acc. induction tokens as [|x tokens IH]; intros r acc; simpl.
  - exists []. by rewrite app_nil_r.
  - destruct (String_match x r) as [[|] r'].
    + destruct (IH r' (acc ++ [(k, x)])) as (m & Hm & ->).
      exists (x :: m). split; [by constructor|]. by rewrite <- app_assoc.
    + destruct (IH r' acc) as (m & Hm & ->).
      exists m. split; [by constructor|done].
Qed.

End Matching.

Section WsSplit.

Implicit Types (p s w run rest : jsstring) (frags : list jsstring).

Lemma skip_ws_head s d : head (skip_ws s) = Some d → is_whitespace d = false.
Proof.
  induction s as [|c s IH]; simpl; [done|].
  destruct (is_whitespace c) eqn:Hc; [done|]. simpl. by intros [= <-].
Qed.

Lemma skip_ws_leading s : ∃ run, s = run ++ skip_ws s ∧ ws_only run.
Proof.
  induction s as [|c s (run & IH & Hrun)]; simpl.
  - exists []. split; [done|constructor].
  - destruct (is_whitespace c) eqn:Hc.
    + exists (c :: run). split; [by rewrite IH at 1|by constructor].
    + exists []. split; [done|constructor].
Qed.

Lemma skip_ws_run run rest : ws_only run → skip_ws (run ++ rest) = skip_ws rest.
Proof. induction 1 as [|c run Hc _ IH]; simpl; [done|]. by rewrite Hc. Qed.

Lemma skip_ws_same rest :
  (∀ d, head rest = Some d → is_whitespace d = false) → skip_ws rest = rest.
Proof. destruct rest as [|d rest]; simpl; [done|]. intros H. by rewrite (H d). Qed.

(** [split_ws] splits on the whitespace runs, and it is the only way to
    do so. *)
Lemma ws_split_split_ws p : ws_split p (split_ws p).
Proof.
  induction p as [w Hw | w c s Hw Hc IH] using split_ws_ind.
  - rewrite split_ws_word by done. by constructor.
  - rewrite split_ws_word_sep by done.
    destruct (skip_ws_leading s) as (run & Hs & Hrun).
    rewrite Hs at 1. apply (ws_split_run w (c :: run) (skip_ws s)); try done.
    + by constructor.
    + apply skip_ws_head.
Qed.

Lemma ws_split_unique p frags : ws_split p frags → frags = split_ws p.
Proof.
  induction 1 as [w Hw | w run rest frags Hw Hne Hrun Hrest _ IH].
  - by rewrite split_ws_word.
  - destruct Hrun as [|c run Hc Hrun]; [done|]. simpl.
    rewrite split_ws_word_sep, skip_ws_run, skip_ws_same by done.
    by rewrite IH.
Qed.

End WsSplit.

(** C2.  With a string pattern, [_getTokensMatch] splits the pattern on
    whitespace runs; when every fragment is a stored token the result
    is the list of pairs of the key with each fragment, in order, and
    when some fragment is not stored the result is [undefined]: no
    partial list is ever returned.  In particular a pattern of two
    words separated by one whitespace character gives the two pairs
    when both words are stored and [undefined] otherwise. *)
Theorem getTokensMatch_string (l : TokenList.t) (k p : jsstring) :
  (∃ frags, ws_split p frags) ∧
  (∀ frags, ws_split p frags →
     _getTokensMatch l k (PString p) =
       if decide (Forall (λ x, x ∈ keys l) frags)
       then Some (map (λ x, (k, x)) frags)
       else None) ∧
  (∀ a b c, ws_free a → ws_free b → is_whitespace c = true →
     _getTokensMatch l k (PString (a ++ c :: b)) =
       if has l a && has l b then Some [(k, a); (k, b)] else None).
Proof.
  split_and!.
  - exists (split_ws p). apply ws_split_split_ws.
  - intros frags ->%ws_split_unique. simpl. case_decide as H.
    + by rewrite match_string_all.
    + by apply match_string_some_absent.
  - intros a b c Ha Hb Hc. simpl.
    rewrite split_ws_word_sep, skip_ws_same, (split_ws_word b) by
      (done || (intros d Hd; destruct b; simplify_eq/=; by inversion Hb)).
    simpl. by destruct (has l a), (has l b).
Qed.

Lemma getTokensMatch_string_witness :
  let k := str "class" in
  (ws_free (str "a") ∧ ws_free (str "b") ∧ is_whitespace 32 = true) ∧
  _getTokensMatch (setTo new (str "a")) k (PString (str "a b")) = None ∧
  _getTokensMatch (setTo new (str "a b")) k (PString (str "a b")) =
    Some [(k, str "a"); (k, str "b")].
Proof.
  assert (ws_free (str "a")) as Ha by (by repeat constructor).
  assert (ws_free (str "b")) as Hb by (by repeat constructor).
  split; [by split_and!|]. split.
  - destruct (getTokensMatch_string (setTo new (str "a")) (str "class") [])
      as (_ & _ & H).
    exact (H (str "a") (str "b") 32 Ha Hb eq_refl).
  - destruct (getTokensMatch_string (setTo new (str "a b")) (str "class") [])
      as (_ & _ & H).
    exact (H (str "a") (str "b") 32 Ha Hb eq_refl).
Defined.

Example getTokensMatch_partial :
  _getTokensMatch (setTo new (str "a")) (str "class") (PString (str "a b")) = None.
Proof. reflexivity. Qed.

Example getTokensMatch_full :
  _getTokensMatch (setTo new (str "a b")) (str "class") (PString (str "a b")) =
    Some [(str "class", str "a"); (str "class", str "b")].
Proof. reflexivity. Qed.

(** C3.  With the pattern [true], [_getTokensMatch] returns one pair per
    stored token, in order, hence the empty list (and not [undefined])
    on an empty token list; with a regular expression that matches no
    stored token it returns [undefined].  The two results differ. *)
Theorem getTokensMatch_true_vs_regexp (l : TokenList.t) (k : jsstring)
    (r : RegExp) :
  (∀ x, x ∈ keys l → no_match r x) →
  _getTokensMatch l k PTrue = Some (map (λ x, (k, x)) (keys l)) ∧
  (isEmpty l = true → _getTokensMatch l k PTrue = Some []) ∧
  _getTokensMatch new k PTrue = Some [] ∧
  _getTokensMatch l k (PRegExp r) = None ∧
  _getTokensMatch l k PTrue ≠ _getTokensMatch l k (PRegExp r).
Proof.
  intros Hr.
  assert (_getTokensMatch l k (PRegExp r) = None) as Hnone.
  { simpl. by rewrite match_regexp_none. }
  split_and!; [| |done|done|].
  - simpl. by rewrite match_all_map.
  - unfold isEmpty. destruct l as [[|x s]]; simpl; [done|discriminate].
  - rewrite Hnone. simpl. discriminate.
Qed.

Lemma getTokensMatch_true_vs_regexp_witness :
  let l := setTo new (str "a b") in
  let k := str "class" in
  let r := RegExp_char 99 false true in
  _getTokensMatch l k PTrue = Some (map (λ x, (k, x)) (keys l)) ∧
  (isEmpty l = true → _getTokensMatch l k PTrue = Some []) ∧
  _getTokensMatch new k PTrue = Some [] ∧
  _getTokensMatch l k (PRegExp r) = None ∧
  _getTokensMatch l k PTrue ≠ _getTokensMatch l k (PRegExp r).
Proof.
  apply (getTokensMatch_true_vs_regexp
           (setTo new (str "a b")) (str "class") (RegExp_char 99 false true)).
  intros x Hx i Hi. vm_compute in Hx.
  assert (i = 0%nat) as -> by (by destruct Hi).
  apply elem_of_cons in Hx as [->|Hx]; [reflexivity|].
  apply elem_of_cons in Hx as [->|Hx]; [reflexivity|].
  by apply elem_of_nil in Hx.
Defined.

(** C10.  On a token list built by the public operations, a string
    pattern that is empty or made of whitespace only is never matched:
    its first fragment is the empty string, which is not stored. *)
Theorem getTokensMatch_blank_pattern (l : TokenList.t) (k p : jsstring) :
  Reachable any_token l → ws_only p →
  (∃ rest, split_ws p = [] :: rest) ∧
  has l [] = false ∧
  _getTokensMatch l k (PString p) = None.
Proof.
  intros Hl Hp.
  destruct (split_ws_ws_only p Hp) as [rest Hsplit].
  assert (has l [] = false) as Hhas.
  { apply has_false. by apply (reachable_no_empty_token any_token). }
  split_and!; [by exists rest|done|].
  simpl. rewrite Hsplit. simpl. by rewrite Hhas.
Qed.

Lemma getTokensMatch_blank_pattern_witness :
  let l := setTo new (str "a b") in
  (Reachable any_token l ∧ ws_only (str "  ")) ∧
  (∃ rest, split_ws (str "  ") = [] :: rest) ∧
  has l [] = false ∧
  _getTokensMatch l (str "class") (PString (str "  ")) = None.
Proof.
  assert (Reachable any_token (setTo new (str "a b"))) as Hl.
  { apply Reachable_setTo, Reachable_new. }
  assert (ws_only (str "  ")) as Hp.
  { by repeat constructor. }
  split; [by split|].
  exact (getTokensMatch_blank_pattern _ (str "class") _ Hl Hp).
Defined.

(** ** Parsing and printing *)

Section SetTo.

Implicit Types (l : TokenList.t) (value x : jsstring).

Lemma setTo_keys l value : keys (setTo l value) = set_loop [] (split_ws value).
Proof. unfold keys. simpl. apply setTo_loop_set_loop. Qed.

Lemma setTo_NoDup l value : NoDup (keys (setTo l value)).
Proof. rewrite setTo_keys. apply set_loop_NoDup. constructor. Qed.

Lemma setTo_elem l value x : x ∈ keys (setTo l value) ↔ maximal_run x value.
Proof.
  rewrite setTo_keys, set_loop_elem, elem_of_nil, <- split_ws_runs. tauto.
Qed.

Lemma setTo_ws_free l value : Forall ws_free (keys (setTo l value)).
Proof.
  apply Forall_forall. intros x Hx. apply setTo_elem in Hx.
  by destruct Hx as (_ & _ & _ & _ & Hx & _).
Qed.

Lemma setTo_nonempty l value : Forall (λ x, x ≠ []) (keys (setTo l value)).
Proof.
  apply Forall_forall. intros x Hx. apply setTo_elem in Hx.
  by destruct Hx as (_ & _ & _ & Hx & _).
Qed.

Lemma setTo_ws_only l value : ws_only value → keys (setTo l value) = [].
Proof.
  intros Hv. destruct (keys (setTo l value)) as [|x s] eqn:E; [done|].
  destruct (ws_only_no_run value x Hv). apply (setTo_elem l). rewrite E. by left.
Qed.

(** Parsing the printed form of well-formed tokens gives them back. *)
Lemma set_loop_split_join (tokens : list jsstring) :
  NoDup tokens → Forall ws_free tokens → Forall (λ x, x ≠ []) tokens →
  set_loop [] (split_ws (join_sp tokens)) = tokens.
Proof.
  intros Hnd Hw Hne. destruct (decide (tokens = [])) as [->|Hnil]; [done|].
  rewrite split_ws_join by done. by rewrite set_loop_fresh.
Qed.

End SetTo.

(** C4.  For every string [s], with [r] the printed form of the token
    list parsed from [s], parsing [r] and printing again gives [r]. *)
Theorem setTo_toString_fixed_point (s : jsstring) :
  let r := toString (setTo new s) in
  toString (setTo new r) = r.
Proof.
  simpl. unfold toString. f_equal.
  change (_set (setTo new (join_sp (_set (setTo new s)))))
    with (keys (setTo new (join_sp (keys (setTo new s))))).
  rewrite setTo_keys. apply set_loop_split_join.
  - apply setTo_NoDup.
  - apply setTo_ws_free.
  - apply setTo_nonempty.
Qed.

Example setTo_toString_padded :
  toString (setTo new (str "  b   a b ")) = str "b a".
Proof. reflexivity. Qed.

(** C6.  [setTo( value )] discards the prior contents and stores
    exactly the maximal runs of non-whitespace characters of [value],
    each once and none of them empty; on the empty string and on a
    whitespace-only string the list ends up empty. *)
Theorem setTo_maximal_runs (l : TokenList.t) (value : jsstring) :
  setTo l value = setTo (clear l) value ∧
  setTo l value = setTo new value ∧
  (∀ x, x ∈ keys (setTo l value) ↔ maximal_run x value) ∧
  NoDup (keys (setTo l value)) ∧
  ([] ∉ keys (setTo l value)) ∧
  isEmpty (setTo l (str "")) = true ∧
  isEmpty (setTo l (str "   ")) = true ∧
  (ws_only value → isEmpty (setTo l value) = true).
Proof.
  split_and!; [done|done| | | |done|done|].
  - intros x. apply setTo_elem.
  - apply setTo_NoDup.
  - intros H. apply setTo_elem in H. by destruct H as (_ & _ & _ & H & _).
  - intros Hv. unfold isEmpty. fold (keys (setTo l value)).
    by rewrite setTo_ws_only.
Qed.

Lemma setTo_maximal_runs_witness :
  let l := setTo new (str "x y") in
  ws_only (str "   ") ∧ isEmpty (setTo l (str "   ")) = true.
Proof.
  assert (ws_only (str "   ")) as Hv by (by repeat constructor).
  split; [exact Hv|].
  destruct (setTo_maximal_runs (setTo new (str "x y")) (str "   "))
    as (_ & _ & _ & _ & _ & _ & _ & H).
  exact (H Hv).
Defined.

Example setTo_runs_padded :
  keys (setTo (setTo new (str "x y")) (str " b   a b ")) = [str "b"; str "a"].
Proof. reflexivity. Qed.

(** ** Comparing and merging *)

Section Compare.

Implicit Types (a b l : TokenList.t) (x : jsstring) (tokens : list jsstring).

Lemma isSimilar_loop_true b tokens :
  isSimilar_loop b tokens = true ↔ ∀ x, x ∈ tokens → x ∈ keys b.
Proof.
  induction tokens as [|x tokens IH]; simpl.
  - split; [|done]. intros _ x Hx. by apply elem_of_nil in Hx.
  - destruct (has b x) eqn:Hx; simpl.
    + apply has_true in Hx. rewrite IH. split.
      * intros H y [->|Hy]%elem_of_cons; auto.
      * intros H y Hy. apply H. by right.
    + apply has_false in Hx. split; [done|]. intros H. destruct Hx. apply H. by left.
Qed.

Lemma isSimilar_true a b :
  isSimilar a b = true ↔ size a = size b ∧ ∀ x, x ∈ keys a → x ∈ keys b.
Proof.
  unfold isSimilar. destruct (Nat.eqb_spec (size a) (size b)) as [E|E]; simpl.
  - rewrite isSimilar_loop_true. tauto.
  - split; [done|]. by intros [? _].
Qed.

(** Two duplicate-free lists of the same length, one inside the
    other, have the same elements. *)
Lemma same_size_incl (s1 s2 : list jsstring) :
  NoDup s1 → length s1 = length s2 →
  (∀ x, x ∈ s1 → x ∈ s2) → ∀ x, x ∈ s2 → x ∈ s1.
Proof.
  intros Hnd Hlen Hincl x Hx.
  assert (s1 ≡ₚ s2) as Hp.
  { apply submseteq_length_Permutation; [by apply NoDup_submseteq | lia]. }
  by rewrite Hp.
Qed.

Lemma isSimilar_sym_true a b :
  NoDup (keys a) → isSimilar a b = true → isSimilar b a = true.
Proof.
  intros Hnd [Hsz Hincl]%isSimilar_true. apply isSimilar_true. split; [done|].
  by apply same_size_incl.
Qed.

Lemma isMatching_loop_true l tokens :
  isMatching_loop l tokens = true ↔ ∀ x, x ∈ tokens → has l x = true.
Proof.
  induction tokens as [|x tokens IH]; simpl.
  - split; [|done]. intros _ x Hx. by apply elem_of_nil in Hx.
  - destruct (has l x) eqn:Hx; simpl.
    + rewrite IH. split.
      * intros H y [->|Hy]%elem_of_cons; auto.
      * intros H y Hy. apply H. by right.
    + split; [done|]. intros H. rewrite <- Hx. apply H. by left.
Qed.

Lemma mergeFrom_self l : _mergeFrom l l = l.
Proof.
  destruct l as [s]. unfold _mergeFrom. simpl. f_equal.
  apply mergeFrom_loop_present. by apply Forall_forall.
Qed.

End Compare.

(** C7.  [isSimilar] is reflexive; on two token lists of the same size
    it gives the same answer in both directions; and two token lists of
    the same non-zero size without a common token are not similar.
    ([NoDup]: a [Set] holds no value twice.) *)
Theorem isSimilar_properties (a b : TokenList.t) :
  isSimilar a a = true ∧
  (NoDup (keys a) → NoDup (keys b) → size a = size b →
   isSimilar a b = isSimilar b a) ∧
  (size a = size b → size a ≠ 0%nat →
   (∀ x, x ∈ keys a → x ∉ keys b) → isSimilar a b = false).
Proof.
  split_and!.
  - apply isSimilar_true. auto.
  - intros Ha Hb _.
    destruct (isSimilar a b) eqn:Eab, (isSimilar b a) eqn:Eba; try done.
    + apply isSimilar_sym_true in Eab; [congruence|done].
    + apply isSimilar_sym_true in Eba; [congruence|done].
  - intros Hsz Hne Hdis. destruct (isSimilar a b) eqn:E; [|done].
    apply isSimilar_true in E as [_ Hincl].
    unfold size, keys in *. destruct (_set a) as [|x s] eqn:Es; [done|].
    destruct (Hdis x); [by left|]. apply Hincl. by left.
Qed.

Lemma isSimilar_properties_witness :
  let a := setTo new (str "a b") in
  let b := setTo new (str "c d") in
  (NoDup (keys a) ∧ NoDup (keys b) ∧ size a = size b ∧ size a ≠ 0%nat ∧
   ∀ x, x ∈ keys a → x ∉ keys b) ∧
  isSimilar a a = true ∧
  isSimilar a b = isSimilar b a ∧
  isSimilar a b = false.
Proof.
  assert (NoDup (keys (setTo new (str "a b")))) as Ha by apply setTo_NoDup.
  assert (NoDup (keys (setTo new (str "c d")))) as Hb by apply setTo_NoDup.
  assert (∀ x, x ∈ keys (setTo new (str "a b")) → x ∉ keys (setTo new (str "c d")))
    as Hdis.
  { apply Forall_forall. apply (bool_decide_unpack _). by vm_compute. }
  destruct (isSimilar_properties (setTo new (str "a b")) (setTo new (str "c d")))
    as (Hrefl & Hsym & Hno).
  split; [split_and!; done|].
  split_and!; [exact Hrefl | by apply Hsym | by apply Hno].
Defined.

Example isSimilar_disjoint :
  isSimilar (setTo new (str "a b")) (setTo new (str "c d")) = false ∧
  isSimilar (setTo new (str "a b")) (setTo new (str "b a")) = true.
Proof. by vm_compute. Qed.

(** C8.  [a._isMatching( b )] is true exactly when every token of [b]
    is a token of [a].  The direction matters: an empty [b] matches any
    [a], and a [b] that has all tokens of [a] and one more does not
    match [a], although [a] then matches [b]. *)
Theorem isMatching_iff (a b : TokenList.t) :
  (_isMatching a b = true ↔ ∀ x, x ∈ keys b → has a x = true) ∧
  (isEmpty b = true → _isMatching a b = true) ∧
  ((∀ x, x ∈ keys a → x ∈ keys b) → (∃ x, x ∈ keys b ∧ x ∉ keys a) →
   _isMatching a b = false ∧ _isMatching b a = true).
Proof.
  assert (∀ a b, _isMatching a b = true ↔ ∀ x, x ∈ keys b → has a x = true) as Hiff.
  { intros a' b'. apply isMatching_loop_true. }
  split_and!.
  - apply Hiff.
  - unfold isEmpty. intros Hb. apply Hiff. unfold keys.
    destruct (_set b); [|done]. intros x Hx. by apply elem_of_nil in Hx.
  - intros Hincl (x & Hxb & Hxa). split.
    + destruct (_isMatching a b) eqn:E; [|done].
      destruct Hxa. apply has_true. by apply (proj1 (Hiff a b) E).
    + apply Hiff. intros y Hy. apply has_true. by apply Hincl.
Qed.

Lemma isMatching_iff_witness :
  let a := setTo new (str "a") in
  let b := setTo new (str "a b") in
  ((∀ x, x ∈ keys a → x ∈ keys b) ∧ ∃ x, x ∈ keys b ∧ x ∉ keys a) ∧
  _isMatching a b = false ∧ _isMatching b a = true.
Proof.
  assert (∀ x, x ∈ keys (setTo new (str "a")) → x ∈ keys (setTo new (str "a b")))
    as Hincl.
  { apply Forall_forall. apply (bool_decide_unpack _). by vm_compute. }
  assert (∃ x, x ∈ keys (setTo new (str "a b")) ∧ x ∉ keys (setTo new (str "a")))
    as Hmore.
  { exists (str "b"). split; apply (bool_decide_unpack _); by vm_compute. }
  split; [by split|].
  destruct (isMatching_iff (setTo new (str "a")) (setTo new (str "a b")))
    as (_ & _ & H).
  exact (H Hincl Hmore).
Defined.

Example isMatching_direction :
  _isMatching (setTo new (str "a")) (setTo new (str "a b")) = false ∧
  _isMatching (setTo new (str "a b")) (setTo new (str "a")) = true ∧
  _isMatching (setTo new (str "a")) new = true.
Proof. by vm_compute. Qed.

(** C5.  After [a._mergeFrom( b )] in a store where [a] and [b] point
    to token lists [A] and [B], the tokens of the object at [a] are
    those of [A] together with those of [B], still without duplicates,
    and the object at [b] is [B] as before (also when [a] and [b] are
    the same object). *)
Theorem mergeFrom_union (σ : gmap nat TokenList.t) (a b : nat) (A B : TokenList.t) :
  σ !! a = Some A → σ !! b = Some B →
  ∃ σ' A',
    Store._mergeFrom a b σ = Some σ' ∧
    σ' !! a = Some A' ∧
    (∀ x, x ∈ keys A' ↔ x ∈ keys A ∨ x ∈ keys B) ∧
    (NoDup (keys A) → NoDup (keys A')) ∧
    (∃ added, keys A' = keys A ++ added) ∧
    σ' !! b = Some B.
Proof.
  intros Ha Hb. exists (<[a := _mergeFrom A B]> σ), (_mergeFrom A B).
  split_and!.
  - unfold Store._mergeFrom. rewrite Ha, Hb. done.
  - apply lookup_insert_eq.
  - intros x. apply mergeFrom_loop_elem.
  - apply mergeFrom_loop_NoDup.
  - unfold keys. simpl. generalize (_set A). induction (_set B) as [|x s IH]; intros s0; simpl.
    + exists []. by rewrite app_nil_r.
    + destruct (Set_has s0 x) eqn:E; simpl; [apply IH|].
      destruct (IH (Set_add s0 x)) as [added ->]. unfold Set_add. rewrite E.
      exists (x :: added). by rewrite <- app_assoc.
  - destruct (decide (a = b)) as [->|Hne].
    + rewrite Ha in Hb. injection Hb as ->. rewrite mergeFrom_self.
      apply lookup_insert_eq.
    + by rewrite lookup_insert_ne.
Qed.

Lemma mergeFrom_union_witness :
  let A := setTo new (str "a b") in
  let B := setTo new (str "b c") in
  let σ : gmap nat TokenList.t := <[1%nat := B]> (<[0%nat := A]> ∅) in
  (σ !! 0%nat = Some A ∧ σ !! 1%nat = Some B) ∧
  ∃ σ' A',
    Store._mergeFrom 0 1 σ = Some σ' ∧
    σ' !! 0%nat = Some A' ∧
    (∀ x, x ∈ keys A' ↔ x ∈ keys A ∨ x ∈ keys B) ∧
    (NoDup (keys A) → NoDup (keys A')) ∧
    (∃ added, keys A' = keys A ++ added) ∧
    σ' !! 1%nat = Some B.
Proof.
  split; [split; reflexivity|].
  apply (mergeFrom_union _ 0%nat 1%nat); reflexivity.
Defined.

Example mergeFrom_ab_bc :
  keys (_mergeFrom (setTo new (str "a b")) (setTo new (str "b c"))) =
    [str "a"; str "b"; str "c"].
Proof. reflexivity. Qed.

(** * Further properties of the class *)

(** ** Adding and removing *)

Section AddRemove.

Implicit Types (s tokens : list jsstring) (x y : jsstring) (l : TokenList.t).

Lemma set_loop_extends tokens s : ∃ added, set_loop s tokens = s ++ added.
Proof.
  revert s. induction tokens as [|x tokens IH]; intros s; simpl.
  - exists []. by rewrite app_nil_r.
  - destruct (truthy x); [|apply IH].
    destruct (IH (Set_add s x)) as [added ->]. unfold Set_add.
    destruct (Set_has s x); [by exists added|].
    exists (x :: added). by rewrite <- app_assoc.
Qed.

Lemma set_loop_absorb tokens s :
  Forall (λ x, x = [] ∨ x ∈ s) tokens → set_loop s tokens = s.
Proof.
  induction 1 as [|x tokens Hx _ IH]; simpl; [done|].
  destruct x as [|c x]; simpl; [done|].
  destruct Hx as [?|Hx]; [done|]. by rewrite Set_add_present.
Qed.

Lemma Set_delete_absent s x : x ∉ s → Set_delete s x = s.
Proof.
  intros Hx. unfold Set_delete. induction s as [|y s IH]; [done|].
  apply not_elem_of_cons in Hx as [Hne Hx].
  rewrite filter_cons_True by done. by rewrite IH.
Qed.

Lemma remove_loop_absent tokens s :
  Forall (λ x, x ∉ s) tokens → remove_loop s tokens = s.
Proof.
  induction 1 as [|x tokens Hx _ IH]; simpl; [done|].
  by rewrite Set_delete_absent.
Qed.

Lemma remove_loop_sublist tokens s : remove_loop s tokens `sublist_of` s.
Proof.
  revert s. induction tokens as [|x tokens IH]; intros s; simpl; [done|].
  etrans; [apply IH|]. apply sublist_filter.
Qed.

Lemma Set_delete_length s x :
  NoDup s → x ∈ s → length (Set_delete s x) = pred (length s).
Proof.
  intros Hnd Hx. unfold Set_delete.
  induction Hnd as [|y s Hy Hnd IH]; [by apply elem_of_nil in Hx|].
  destruct (decide (y = x)) as [->|Hne].
  - rewrite filter_cons_False by (by intros ?).
    fold (Set_delete s x). by rewrite Set_delete_absent.
  - rewrite filter_cons_True by done. simpl.
    apply elem_of_cons in Hx as [->|Hx]; [done|]. rewrite IH by done.
    destruct s; [by apply elem_of_nil in Hx | done].
Qed.

End AddRemove.

(** X1.  Adding the same tokens a second time changes nothing: [set]
    is idempotent, whatever the tokens and the list. *)
Theorem set_idempotent (l : TokenList.t) (tokens : ArrayOrItem) :
  set (set l tokens) tokens = set l tokens.
Proof.
  unfold set. simpl. f_equal. apply set_loop_absorb, Forall_forall.
  intros x Hx. destruct (decide (x = [])) as [->|Hne]; [by left|].
  right. apply set_loop_elem. by right.
Qed.

(** X2.  [set] never removes or moves a stored token: the old tokens
    stay in front, in their order, and the tokens stored afterwards
    are the old ones and the non-empty ones among the arguments; empty
    strings among the arguments are ignored. *)
Theorem set_extends (l : TokenList.t) (tokens : ArrayOrItem) :
  (∃ added, keys (set l tokens) = keys l ++ added) ∧
  (∀ x, x ∈ keys (set l tokens) ↔ x ∈ keys l ∨ (x ∈ toArray tokens ∧ x ≠ [])) ∧
  set l (Item []) = l.
Proof.
  split_and!.
  - apply set_loop_extends.
  - intros x. apply set_loop_elem.
  - by destruct l.
Qed.

(** X3.  [remove] deletes exactly the listed tokens and keeps the
    others in their order; listing tokens that are not stored is not an
    error and leaves the list as it is. *)
Theorem remove_spec (l : TokenList.t) (tokens : ArrayOrItem) :
  (∀ x, x ∈ keys (remove l tokens) ↔ x ∈ keys l ∧ x ∉ toArray tokens) ∧
  keys (remove l tokens) `sublist_of` keys l ∧
  ((∀ x, x ∈ toArray tokens → has l x = false) → remove l tokens = l).
Proof.
  split_and!.
  - intros x. apply remove_loop_elem.
  - apply remove_loop_sublist.
  - intros Habs. destruct l as [s]. unfold remove. simpl. f_equal.
    apply remove_loop_absent, Forall_forall. intros x Hx.
    by apply (Set_has_false s), (Habs x).
Qed.

Lemma remove_spec_witness :
  let l := setTo new (str "a b") in
  (∀ x, x ∈ toArray (Items [str "c"; str ""]) → has l x = false) ∧
  remove l (Items [str "c"; str ""]) = l.
Proof.
  assert (∀ x, x ∈ toArray (Items [str "c"; str ""]) →
               has (setTo new (str "a b")) x = false) as Habs.
  { apply Forall_forall. by repeat constructor. }
  split; [exact Habs|].
  destruct (remove_spec (setTo new (str "a b")) (Items [str "c"; str ""]))
    as (_ & _ & H).
  exact (H Habs).
Defined.

(** X4.  Adding a token that is not stored and removing it again gives
    the list back; removing a stored token and adding it again puts it
    last. *)
Theorem set_remove_round_trip (l : TokenList.t) (x : jsstring) :
  (has l x = false → remove (set l (Item x)) (Item x) = l) ∧
  (x ≠ [] →
   keys (set (remove l (Item x)) (Item x)) = filter (λ y, y ≠ x) (keys l) ++ [x]).
Proof.
  destruct l as [s]. unfold set, remove, keys, has. simpl. split.
  - intros Hx%Set_has_false. f_equal. destruct x as [|c x]; simpl.
    + by apply Set_delete_absent.
    + unfold Set_add. rewrite (proj2 (Set_has_false s (c :: x)) Hx).
      unfold Set_delete. rewrite filter_app.
      rewrite (filter_cons_False _ (c :: x) []) by (by intros ?).
      rewrite filter_nil, app_nil_r. by apply Set_delete_absent.
  - intros Hne. apply truthy_true in Hne. rewrite Hne.
    unfold Set_add. rewrite (proj2 (Set_has_false (Set_delete s x) x)); [done|].
    intros [_ H]%elem_of_Set_delete. done.
Qed.

Lemma set_remove_round_trip_witness :
  let l := setTo new (str "a b") in
  (has l (str "c") = false ∧ str "a" ≠ []) ∧
  remove (set l (Item (str "c"))) (Item (str "c")) = l ∧
  keys (set (remove l (Item (str "a"))) (Item (str "a"))) = [str "b"; str "a"].
Proof.
  split; [split; [reflexivity | discriminate]|]. split.
  - exact (proj1 (set_remove_round_trip (setTo new (str "a b")) (str "c")) eq_refl).
  - exact (proj2 (set_remove_round_trip (setTo new (str "a b")) (str "a"))
             ltac:(discriminate)).
Defined.

(** X5.  [size] after one [set] or one [remove]: adding a token grows
    the list by one exactly when the token is non-empty and new;
    removing a token shrinks it by one exactly when the token was
    stored.  ([NoDup]: a [Set] holds no value twice.) *)
Theorem size_set_remove (l : TokenList.t) (x : jsstring) :
  NoDup (keys l) →
  size (set l (Item x)) =
    (if truthy x && negb (has l x) then S (size l) else size l) ∧
  size (remove l (Item x)) =
    (if has l x then pred (size l) else size l).
Proof.
  destruct l as [s]. unfold set, remove, keys, has, size. simpl. intros Hnd. split.
  - destruct (truthy x); simpl; [|done]. unfold Set_add.
    destruct (Set_has s x); simpl; [done|]. rewrite length_app. simpl. lia.
  - destruct (Set_has s x) eqn:Hx.
    + apply Set_has_true in Hx. by apply Set_delete_length.
    + apply Set_has_false in Hx. by rewrite Set_delete_absent.
Qed.

Lemma size_set_remove_witness :
  let l := setTo new (str "a b") in
  NoDup (keys l) ∧
  size (set l (Item (str "a"))) = 2%nat ∧
  size (remove l (Item (str "a"))) = 1%nat.
Proof.
  assert (NoDup (keys (setTo new (str "a b")))) as Hnd.
  { apply (bool_decide_unpack _). by vm_compute. }
  split; [exact Hnd|].
  exact (size_set_remove (setTo new (str "a b")) (str "a") Hnd).
Defined.

(** ** Comparisons as relations *)

Section Relations.

Implicit Types (a b c l : TokenList.t) (x : jsstring) (s tokens : list jsstring).

Lemma isMatching_true a b :
  _isMatching a b = true ↔ ∀ x, x ∈ keys b → x ∈ keys a.
Proof.
  unfold _isMatching. rewrite isMatching_loop_true. unfold keys.
  split; intros H x Hx; [by apply has_true, H | by apply has_true, H].
Qed.

Lemma mergeFrom_loop_set_loop tokens s :
  Forall (λ x, x ≠ []) tokens → mergeFrom_loop s tokens = set_loop s tokens.
Proof.
  intros H. revert s. induction H as [|x tokens Hx _ IH]; intros s; simpl; [done|].
  apply truthy_true in Hx. rewrite Hx.
  destruct (Set_has s x) eqn:E; simpl; [|apply IH].
  apply Set_has_true in E. rewrite Set_add_present by done. apply IH.
Qed.

Lemma join_sp_nil tokens :
  Forall (λ x, x ≠ []) tokens → join_sp tokens = [] → tokens = [].
Proof.
  intros H. destruct H as [|x tokens Hx _]; [done|].
  destruct x as [|c x]; [done|]. by destruct tokens.
Qed.

End Relations.

(** X6.  Two token lists are similar exactly when they hold the same
    tokens, in whatever order.  ([NoDup]: a [Set] holds no value
    twice.) *)
Theorem isSimilar_iff_Permutation (a b : TokenList.t) :
  NoDup (keys a) → NoDup (keys b) →
  isSimilar a b = true ↔ keys a ≡ₚ keys b.
Proof.
  intros Ha Hb. rewrite isSimilar_true. split.
  - intros [Hsz Hincl]. apply NoDup_Permutation; [done..|].
    intros x. split; [apply Hincl|]. by apply same_size_incl.
  - intros Hp. split.
    + unfold size. fold (keys a) (keys b). by rewrite Hp.
    + intros x. by rewrite Hp.
Qed.

Lemma isSimilar_iff_Permutation_witness :
  let a := setTo new (str "a b") in
  let b := setTo new (str "b a") in
  (NoDup (keys a) ∧ NoDup (keys b)) ∧
  (isSimilar a b = true ↔ keys a ≡ₚ keys b).
Proof.
  assert (NoDup (keys (setTo new (str "a b")))) as Ha by apply setTo_NoDup.
  assert (NoDup (keys (setTo new (str "b a")))) as Hb by apply setTo_NoDup.
  split; [by split|].
  exact (isSimilar_iff_Permutation _ _ Ha Hb).
Defined.

(** X7.  On duplicate-free token lists, [isSimilar] is matching in
    both directions. *)
Theorem isSimilar_mutual_matching (a b : TokenList.t) :
  NoDup (keys a) → NoDup (keys b) →
  isSimilar a b = _isMatching a b && _isMatching b a.
Proof.
  intros Ha Hb.
  destruct (_isMatching a b) eqn:Eab, (_isMatching b a) eqn:Eba; simpl.
  - pose proof (proj1 (isMatching_true _ _) Eab) as Hba.
    pose proof (proj1 (isMatching_true _ _) Eba) as Hab.
    apply isSimilar_true. split; [|done].
    unfold size. fold (keys a) (keys b). apply Permutation_length.
    apply NoDup_Permutation; [done..|]. intros x. split; auto.
  - destruct (isSimilar a b) eqn:E; [|done].
    apply isSimilar_true in E as [_ E]. apply (isMatching_true b a) in E. congruence.
  - destruct (isSimilar a b) eqn:E; [|done].
    apply isSimilar_sym_true in E; [|done].
    apply isSimilar_true in E as [_ E]. apply (isMatching_true a b) in E. congruence.
  - destruct (isSimilar a b) eqn:E; [|done].
    apply isSimilar_true in E as [_ E]. apply (isMatching_true b a) in E. congruence.
Qed.

Lemma isSimilar_mutual_matching_witness :
  let a := setTo new (str "a b") in
  let b := setTo new (str "b a") in
  (NoDup (keys a) ∧ NoDup (keys b)) ∧
  isSimilar a b = _isMatching a b && _isMatching b a.
Proof.
  assert (NoDup (keys (setTo new (str "a b")))) as Ha by apply setTo_NoDup.
  assert (NoDup (keys (setTo new (str "b a")))) as Hb by apply setTo_NoDup.
  split; [by split|].
  exact (isSimilar_mutual_matching _ _ Ha Hb).
Defined.

(** X8.  [_isMatching] is reflexive and transitive, and [isSimilar] is
    transitive. *)
Theorem matching_transitive (a b c : TokenList.t) :
  _isMatching a a = true ∧
  (_isMatching a b = true → _isMatching b c = true → _isMatching a c = true) ∧
  (isSimilar a b = true → isSimilar b c = true → isSimilar a c = true).
Proof.
  split_and!.
  - by apply isMatching_true.
  - rewrite !isMatching_true. auto.
  - rewrite !isSimilar_true. intros [-> Hab] [-> Hbc]. auto.
Qed.

Lemma matching_transitive_witness :
  let a := setTo new (str "a b c") in
  let b := setTo new (str "b a") in
  let c := setTo new (str "b") in
  (_isMatching a b = true ∧ _isMatching b c = true) ∧ _isMatching a c = true.
Proof.
  split; [by split|].
  destruct (matching_transitive (setTo new (str "a b c")) (setTo new (str "b a"))
              (setTo new (str "b"))) as (_ & H & _).
  by apply H.
Defined.

(** X9.  After [a._mergeFrom( b )], [a] matches both [b] and its former
    self; merging changes [a] exactly when [a] did not match [b]
    already, so merging the same list twice is merging it once. *)
Theorem mergeFrom_matching (a b : TokenList.t) :
  _isMatching (_mergeFrom a b) b = true ∧
  _isMatching (_mergeFrom a b) a = true ∧
  (_isMatching a b = true ↔ _mergeFrom a b = a) ∧
  _mergeFrom (_mergeFrom a b) b = _mergeFrom a b.
Proof.
  assert (∀ a b, _isMatching (_mergeFrom a b) b = true) as Hb.
  { intros a' b'. apply isMatching_true. intros x Hx.
    apply mergeFrom_loop_elem. by right. }
  assert (∀ a b, _isMatching a b = true → _mergeFrom a b = a) as Hsame.
  { intros [s] b' H. unfold _mergeFrom. simpl. f_equal.
    apply mergeFrom_loop_present, Forall_forall. intros x Hx.
    by apply (proj1 (isMatching_true _ _) H). }
  split_and!; [apply Hb| |split; [apply Hsame|]|by apply Hsame].
  - apply isMatching_true. intros x Hx. apply mergeFrom_loop_elem. by left.
  - intros <-. apply Hb.
Qed.

(** X10.  Merging [b] into [a] is adding the tokens of [b] to [a], as
    long as [b] stores no empty token. *)
Theorem mergeFrom_is_set (a b : TokenList.t) :
  [] ∉ keys b → _mergeFrom a b = set a (Items (keys b)).
Proof.
  intros Hb. unfold _mergeFrom, set. simpl. f_equal.
  apply mergeFrom_loop_set_loop, Forall_forall. by intros x Hx ->.
Qed.

Lemma mergeFrom_is_set_witness :
  let a := setTo new (str "a b") in
  let b := setTo new (str "b c") in
  ([] ∉ keys b) ∧ _mergeFrom a b = set a (Items (keys b)).
Proof.
  assert ([] ∉ keys (setTo new (str "b c"))) as Hb.
  { apply (bool_decide_unpack _). by vm_compute. }
  split; [exact Hb|].
  exact (mergeFrom_is_set (setTo new (str "a b")) _ Hb).
Defined.

(** ** Matching, printing and copying *)

(** X11.  With a regular expression, [_getTokensMatch] returns
    [undefined] or the pairs of the key with a non-empty subsequence of
    the stored tokens, in the order of the list.  When the expression
    has the [g] flag or lacks the [y] flag, that subsequence is made of
    exactly the stored tokens the expression matches, whatever its
    [lastIndex].  (A sticky expression without [g] carries [lastIndex]
    from one token to the next: see the example below.) *)
Theorem getTokensMatch_regexp (l : TokenList.t) (k : jsstring) (r : RegExp) :
  (∃ m, m `sublist_of` keys l ∧
     _getTokensMatch l k (PRegExp r) =
       match m with
       | [] => None
       | x :: m' => Some (map (λ y, (k, y)) (x :: m'))
       end) ∧
  (stateless r →
     ∀ i, _getTokensMatch l k (PRegExp (with_lastIndex r i)) =
       match filter (λ x, found (exec r x 0) = true) (keys l) with
       | [] => None
       | x :: m => Some (map (λ y, (k, y)) (x :: m))
       end).
Proof.
  split.
  - destruct (match_regexp_sublist r k (keys l) []) as (m & Hm & E).
    exists m. split; [done|]. simpl. unfold keys in E. rewrite E. simpl.
    by destruct m.
  - intros Hr i. simpl.
    rewrite (match_regexp_stateless r (with_lastIndex r i)) by done.
    simpl. unfold keys.
    by destruct (filter (λ x, found (exec r x 0) = true) (_set l)).
Qed.

Lemma getTokensMatch_regexp_witness :
  let l := setTo new (str "aa ba c") in
  let k := str "class" in
  let r := RegExp_char 97 false false in
  stateless r ∧
  _getTokensMatch l k (PRegExp (with_lastIndex r 1)) =
    Some [(k, str "aa"); (k, str "ba")].
Proof.
  assert (stateless (RegExp_char 97 false false)) as Hr by (by right).
  split; [exact Hr|].
  destruct (getTokensMatch_regexp (setTo new (str "aa ba c")) (str "class")
              (RegExp_char 97 false false)) as [_ H].
  exact (H Hr 1%nat).
Defined.

(** The sticky expression [/a/y]: after the match in [aa] its
    [lastIndex] is 1, where [ba] has an [a]; in the other order [ba]
    is tried at 0 and fails. *)
Example getTokensMatch_sticky :
  let k := str "class" in
  let r := RegExp_char 97 false true in
  _getTokensMatch (setTo new (str "aa ba")) k (PRegExp r) =
    Some [(k, str "aa"); (k, str "ba")] ∧
  _getTokensMatch (setTo new (str "ba aa")) k (PRegExp r) =
    Some [(k, str "aa")] ∧
  lastIndex (_getTokensMatch_regexp_after (setTo new (str "aa ba")) k r) = 2%nat.
Proof. by vm_compute. Qed.

(** X12.  A non-empty token list built by the public operations from
    whitespace-free tokens matches its own printed form in full, as
    the pattern [true] does; the printed form of the empty list, the
    empty string, is matched by no list built that way. *)
Theorem getTokensMatch_own_toString (l : TokenList.t) (k : jsstring) :
  Reachable ws_free l → isEmpty l = false →
  _getTokensMatch l k (PString (toString l)) = _getTokensMatch l k PTrue ∧
  _getTokensMatch l k (PString (toString new)) = None.
Proof.
  intros Hl Hne.
  assert (Forall ws_free (keys l)) as Hw by (apply (reachable_Forall ws_free); auto).
  assert (Forall (λ x, x ≠ []) (keys l)) as Hn by (apply (reachable_Forall ws_free); auto).
  split.
  - simpl. unfold toString. fold (keys l). rewrite split_ws_join; [|done..|].
    + rewrite match_string_all by (by apply Forall_forall).
      by rewrite match_all_map.
    + intros E. unfold isEmpty in Hne. fold (keys l) in Hne. by rewrite E in Hne.
  - simpl. destruct (has l []) eqn:E; [|done].
    apply has_true in E. rewrite Forall_forall in Hn. by destruct (Hn [] E).
Qed.

Lemma getTokensMatch_own_toString_witness :
  let l := setTo new (str " b  a ") in
  (Reachable ws_free l ∧ isEmpty l = false) ∧
  _getTokensMatch l (str "class") (PString (toString l)) =
    Some [(str "class", str "b"); (str "class", str "a")] ∧
  _getTokensMatch l (str "class") (PString (toString new)) = None.
Proof.
  assert (Reachable ws_free (setTo new (str " b  a "))) as Hl.
  { apply Reachable_setTo, Reachable_new. }
  split; [by split|].
  exact (getTokensMatch_own_toString _ (str "class") Hl eq_refl).
Defined.

(** X13.  Parsing the printed form of a token list built by the public
    operations from whitespace-free tokens restores the list: the same
    tokens in the same order, whatever the list parsed into held. *)
Theorem setTo_toString_restores (l other : TokenList.t) :
  Reachable ws_free l → setTo other (toString l) = l.
Proof.
  intros Hl.
  assert (NoDup (keys l)) as Hnd by (by apply (reachable_NoDup ws_free)).
  assert (Forall ws_free (keys l)) as Hw by (apply (reachable_Forall ws_free); auto).
  assert (Forall (λ x, x ≠ []) (keys l)) as Hn by (apply (reachable_Forall ws_free); auto).
  destruct l as [s]. unfold setTo, toString. simpl. f_equal.
  rewrite setTo_loop_set_loop. by apply set_loop_split_join.
Qed.

Lemma setTo_toString_restores_witness :
  let l := remove (set new (Items [str "x"; str "y"; str "z"])) (Item (str "y")) in
  Reachable ws_free l ∧ setTo (setTo new (str "q")) (toString l) = l.
Proof.
  assert (Reachable ws_free
            (remove (set new (Items [str "x"; str "y"; str "z"])) (Item (str "y"))))
    as Hl.
  { apply Reachable_remove, Reachable_set; [apply Reachable_new|].
    by repeat constructor. }
  split; [exact Hl|].
  exact (setTo_toString_restores _ (setTo new (str "q")) Hl).
Defined.

(** X14.  A token list built by the public operations prints as the
    empty string exactly when it is empty. *)
Theorem toString_empty_iff (l : TokenList.t) :
  Reachable any_token l → toString l = [] ↔ isEmpty l = true.
Proof.
  intros Hl. unfold toString, isEmpty. fold (keys l). split.
  - intros E. apply join_sp_nil in E; [by rewrite E|].
    apply (reachable_Forall any_token); auto.
  - destruct (keys l); [done|discriminate].
Qed.

Lemma toString_empty_iff_witness :
  let l := remove (setTo new (str "a")) (Item (str "a")) in
  Reachable any_token l ∧ (toString l = [] ↔ isEmpty l = true).
Proof.
  assert (Reachable any_token (remove (setTo new (str "a")) (Item (str "a")))) as Hl.
  { apply Reachable_remove, Reachable_setTo, Reachable_new. }
  split; [exact Hl|].
  exact (toString_empty_iff _ Hl).
Defined.

(** X15.  [_clone] gives a new object with the same tokens in the same
    order, next to the original, which keeps its tokens.  The two do
    not share their set: tokens added to the copy afterwards do not
    reach the original, and tokens added to the original do not reach
    the copy.  ([NoDup]: a [Set] holds no value twice.) *)
Theorem clone_independent (h : Heap.heap) (a sa : nat) (elems : list jsstring) :
  Heap.lists h !! a = Some sa → Heap.sets h !! sa = Some elems → NoDup elems →
  ∃ c h',
    Heap._clone a h = Some (c, h') ∧
    Heap.lists h !! c = None ∧
    Heap.keys c h' = Some elems ∧
    Heap.keys a h' = Some elems ∧
    (∀ tokens, ∃ h'',
       Heap.set c tokens h' = Some h'' ∧
       Heap.keys a h'' = Some elems ∧
       Heap.keys c h'' = Some (set_loop elems (toArray tokens))) ∧
    (∀ tokens, ∃ h'',
       Heap.set a tokens h' = Some h'' ∧
       Heap.keys c h'' = Some elems ∧
       Heap.keys a h'' = Some (set_loop elems (toArray tokens))).
Proof.
  intros Ha Hsa Hnd. destruct h as [S L]. simpl in Ha, Hsa.
  set (s0 := fresh (dom S)). set (c := fresh (dom L)).
  set (s1 := fresh (dom (<[s0 := []]> S))).
  assert (S !! s0 = None) as Hs0 by apply not_elem_of_dom, is_fresh.
  assert (L !! c = None) as Hc by apply not_elem_of_dom, is_fresh.
  assert ((<[s0 := []]> S) !! s1 = None) as Hs1 by apply not_elem_of_dom, is_fresh.
  assert (s0 ≠ sa) as Hne0 by (intros E; rewrite E in Hs0; congruence).
  assert (c ≠ a) as Hnec by (intros E; rewrite E in Hc; congruence).
  assert (s1 ≠ s0) as Hne10.
  { intros E. rewrite E, lookup_insert_eq in Hs1. done. }
  assert (s1 ≠ sa) as Hne1.
  { intros E. rewrite E, lookup_insert_ne, Hsa in Hs1; done. }
  exists c, (Heap.mkHeap (<[s1 := Set_from elems]> (<[s0 := []]> S))
                         (<[c := s1]> (<[c := s0]> L))).
  assert (∀ X : gmap nat (list jsstring),
            Heap.keys a (Heap.mkHeap X (<[c := s1]> (<[c := s0]> L))) = X !! sa)
    as Hka.
  { intros X. unfold Heap.keys. simpl. by rewrite !lookup_insert_ne, Ha. }
  assert (∀ X : gmap nat (list jsstring),
            Heap.keys c (Heap.mkHeap X (<[c := s1]> (<[c := s0]> L))) = X !! s1)
    as Hkc.
  { intros X. unfold Heap.keys. simpl. by rewrite lookup_insert_eq. }
  split_and!.
  - unfold Heap._clone. simpl. rewrite Ha. simpl. by rewrite Hsa.
  - done.
  - rewrite Hkc, lookup_insert_eq. by rewrite Set_from_NoDup.
  - rewrite Hka, !lookup_insert_ne by done. done.
  - intros tokens. unfold Heap.set. simpl.
    rewrite lookup_insert_eq. simpl. rewrite lookup_insert_eq. simpl.
    eexists. split; [done|]. rewrite Hka, Hkc.
    rewrite !lookup_insert_ne by done. rewrite lookup_insert_eq.
    by rewrite Set_from_NoDup.
  - intros tokens. unfold Heap.set. simpl.
    rewrite !lookup_insert_ne, Ha by done. simpl.
    rewrite !lookup_insert_ne, Hsa by done. simpl.
    eexists. split; [done|]. rewrite Hka, Hkc.
    rewrite lookup_insert_eq, lookup_insert_ne, lookup_insert_eq by done.
    by rewrite Set_from_NoDup.
Qed.

Lemma clone_independent_witness :
  let elems := [str "a"; str "b"] in
  let h := Heap.mkHeap (<[7%nat := elems]> ∅) (<[3%nat := 7%nat]> ∅) in
  (Heap.lists h !! 3%nat = Some 7%nat ∧ Heap.sets h !! 7%nat = Some elems ∧
   NoDup elems) ∧
  ∃ c h',
    Heap._clone 3 h = Some (c, h') ∧
    Heap.lists h !! c = None ∧
    Heap.keys c h' = Some elems ∧
    Heap.keys 3 h' = Some elems ∧
    (∀ tokens, ∃ h'',
       Heap.set c tokens h' = Some h'' ∧
       Heap.keys 3 h'' = Some elems ∧
       Heap.keys c h'' = Some (set_loop elems (toArray tokens))) ∧
    (∀ tokens, ∃ h'',
       Heap.set 3 tokens h' = Some h'' ∧
       Heap.keys c h'' = Some elems ∧
       Heap.keys 3 h'' = Some (set_loop elems (toArray tokens))).
Proof.
  assert (NoDup [str "a"; str "b"]) as Hnd.
  { apply (bool_decide_unpack _). by vm_compute. }
  split; [by split_and!|].
  exact (clone_independent
           (Heap.mkHeap (<[7%nat := [str "a"; str "b"]]> ∅) (<[3%nat := 7%nat]> ∅))
           3%nat 7%nat _ eq_refl eq_refl Hnd).
Defined.

(** A copy that shared its set with the original would fail this: the
    token added to the copy below is not among the keys of the
    original. *)
Example clone_then_set :
  let h := Heap.mkHeap (<[7%nat := [str "a"]]> ∅) (<[3%nat := 7%nat]> ∅) in
  (ch ← Heap._clone 3 h;
   h' ← Heap.set ch.1 (Item (str "b")) ch.2;
   orig ← Heap.keys 3 h';
   copy ← Heap.keys ch.1 h';
   Some (orig, copy)) = Some ([str "a"], [str "a"; str "b"]).
Proof. by vm_compute. Qed.

(** * The snippet filter *)

Section SnippetFilter.

Import Snippets.

Context (minimatch : jsstring → jsstring → bool) (heap : nat → Snippet).

Implicit Types (d r x : nat) (todo b snippets : list nat) (p s name : jsstring)
  (allowed : list jsstring).

Lemma starts_with_true p s : starts_with p s = true ↔ ∃ post, s = p ++ post.
Proof.
  revert s. induction p as [|a p IH]; intros s; simpl.
  - split; [|done]. intros _. by exists s.
  - destruct s as [|c s].
    + split; [done|]. by intros [post ?].
    + rewrite andb_true_iff, N.eqb_eq, IH. split.
      * intros [-> [post ->]]. by exists post.
      * intros [post [= -> ->]]. split; [done|]. by exists post.
Qed.

Lemma includes_true s p : includes s p = true ↔ factor_of p s.
Proof.
  unfold factor_of. induction s as [|c s IH]; simpl.
  - rewrite orb_false_r, starts_with_true. split.
    + intros [post ->]. by exists [], post.
    + intros (pre & post & H). destruct pre; [by exists post|done].
  - rewrite orb_true_iff, starts_with_true, IH. split.
    + intros [[post ->] | (pre & post & ->)]; [by exists [], post|].
      by exists (c :: pre), post.
    + intros ([|c' pre] & post & Heq); [left; by exists post|].
      right. injection Heq as <- ->. by exists pre, post.
Qed.

Lemma shouldBeBuilt_true allowed name :
  shouldBeBuilt minimatch allowed name = true ↔ name_allowed minimatch allowed name.
Proof.
  unfold shouldBeBuilt, name_allowed. rewrite existsb_exists. split.
  - intros (p & Hp & H). exists p. rewrite list_elem_of_In. split; [done|].
    apply orb_true_iff in H as [H|H]; [by left|]. right. by apply includes_true.
  - intros (p & Hp & H). exists p. rewrite <- list_elem_of_In. split; [done|].
    apply orb_true_iff. destruct H as [H|H]; [by left|]. right. by apply includes_true.
Qed.

Lemma RefSet_has_true b x : RefSet_has b x = true ↔ x ∈ b.
Proof. unfold RefSet_has. apply bool_decide_eq_true. Qed.

Lemma elem_of_RefSet_add b d x : x ∈ RefSet_add b d ↔ x ∈ b ∨ x = d.
Proof.
  unfold RefSet_add. destruct (RefSet_has b d) eqn:H.
  - apply RefSet_has_true in H. split; [by left|]. by intros [?| ->].
  - rewrite elem_of_app, list_elem_of_singleton. tauto.
Qed.

Lemma matched_loop_elem allowed todo b x :
  x ∈ matched_loop minimatch heap allowed todo b ↔
  x ∈ b ∨ (x ∈ todo ∧ name_allowed minimatch allowed (snippetName (heap x))).
Proof.
  revert b. induction todo as [|d todo IH]; intros b; simpl.
  - rewrite elem_of_nil. tauto.
  - destruct (shouldBeBuilt minimatch allowed (snippetName (heap d))) eqn:E;
      rewrite IH, ?elem_of_RefSet_add, elem_of_cons.
    + apply shouldBeBuilt_true in E. split; [|tauto].
      intros [[?| ->]|?]; tauto.
    + split; [tauto|]. intros [Hb|[[->|Ht] Hal]]; [tauto| |tauto].
      apply shouldBeBuilt_true in Hal. congruence.
Qed.

Lemma required_loop_mono todo b x : x ∈ b → x ∈ required_loop heap todo b.
Proof.
  revert b. induction todo as [|d todo IH]; intros b Hx; simpl; [done|].
  destruct (RefSet_has b d); [by apply IH|].
  destruct (requiredFor (heap d)) as [r|]; [|by apply IH].
  destruct (RefSet_has b r); apply IH; [|done].
  apply elem_of_RefSet_add. by left.
Qed.

Lemma required_loop_origin todo b x :
  x ∈ required_loop heap todo b →
  x ∈ b ∨ (x ∈ todo ∧ ∃ r, requiredFor (heap x) = Some r ∧ r ∈ required_loop heap todo b).
Proof.
  revert b. induction todo as [|d todo IH]; intros b; simpl; [by left|].
  assert (∀ b', x ∈ required_loop heap todo b' → (x ∈ b' → x ∈ b) →
    x ∈ b ∨ (x ∈ d :: todo ∧
      ∃ r, requiredFor (heap x) = Some r ∧ r ∈ required_loop heap todo b')) as Hsame.
  { intros b' Hx Hb. destruct (IH b' Hx) as [?|[? ?]]; [left; auto|].
    right. split; [by right|done]. }
  destruct (RefSet_has b d) eqn:Ed; [intros Hx; by apply Hsame|].
  destruct (requiredFor (heap d)) as [r|] eqn:Er; [|intros Hx; by apply Hsame].
  destruct (RefSet_has b r) eqn:Eb; [|intros Hx; by apply Hsame].
  intros Hx. destruct (IH _ Hx) as [[?| ->]%elem_of_RefSet_add | [? ?]].
  - by left.
  - right. split; [by left|]. exists r. split; [done|].
    apply required_loop_mono, elem_of_RefSet_add. left. by apply RefSet_has_true.
  - right. split; [by right|done].
Qed.

Lemma required_loop_subset todo b x :
  x ∈ required_loop heap todo b → x ∈ b ∨ x ∈ todo.
Proof. intros [?|[? _]]%required_loop_origin; auto. Qed.

Lemma required_loop_direct todo b d r :
  d ∈ todo → requiredFor (heap d) = Some r → r ∈ b →
  d ∈ required_loop heap todo b.
Proof.
  revert b. induction todo as [|d' todo IH]; intros b Hd Hr Hb; simpl.
  - by apply elem_of_nil in Hd.
  - apply elem_of_cons in Hd as [<-|Hd].
    + destruct (RefSet_has b d) eqn:Ed.
      * by apply required_loop_mono, RefSet_has_true.
      * rewrite Hr, (proj2 (RefSet_has_true b r) Hb).
        apply required_loop_mono, elem_of_RefSet_add. by right.
    + destruct (RefSet_has b d'); [by apply IH|].
      destruct (requiredFor (heap d')) as [r'|]; [|by apply IH].
      destruct (RefSet_has b r'); apply IH; try done.
      apply elem_of_RefSet_add. by left.
Qed.

Lemma required_loop_app todo1 todo2 b :
  required_loop heap (todo1 ++ todo2) b =
  required_loop heap todo2 (required_loop heap todo1 b).
Proof.
  revert b. induction todo1 as [|d todo1 IH]; intros b; simpl; [done|].
  destruct (RefSet_has b d); [apply IH|].
  destruct (requiredFor (heap d)) as [r|]; [|apply IH].
  destruct (RefSet_has b r); apply IH.
Qed.

Lemma filter_ext_elem (P Q : nat → Prop) `{!∀ x, Decision (P x), !∀ x, Decision (Q x)}
    (l : list nat) :
  (∀ x, x ∈ l → P x ↔ Q x) → filter P l = filter Q l.
Proof.
  induction l as [|y l IH]; intros Hext; [done|].
  rewrite !filter_cons. rewrite IH by (intros x Hx; apply Hext; by right).
  destruct (decide (P y)) as [HP|HP], (decide (Q y)) as [HQ|HQ]; try done.
  - destruct HQ. apply Hext; [by left|done].
  - destruct HP. apply Hext; [by left|done].
Qed.

Lemma delete_loop_filter b todo snippets :
  delete_loop b todo snippets = filter (λ x, x ∈ b ∨ x ∉ todo) snippets.
Proof.
  revert snippets. induction todo as [|d todo IH]; intros snippets; simpl.
  - induction snippets as [|y l IHl]; [done|].
    rewrite filter_cons_True; [by rewrite <- IHl|]. right. apply not_elem_of_nil.
  - destruct (RefSet_has b d) eqn:E; simpl; rewrite IH.
    + apply RefSet_has_true in E. apply list_filter_iff. intros x.
      rewrite not_elem_of_cons. split; [|tauto].
      intros [?|?]; [by left|]. destruct (decide (x = d)) as [->|?]; [by left|tauto].
    + assert (d ∉ b) as Hd by (intros H; apply RefSet_has_true in H; congruence).
      unfold RefSet_delete. rewrite list_filter_filter. apply list_filter_iff.
      intros x. rewrite not_elem_of_cons. split; [tauto|].
      intros [?|[? ?]]; [|tauto]. split; [by left|]. by intros ->.
Qed.

(** What stays in [snippets] is what the first two loops chose. *)
Lemma filterAllowedSnippets_filter snippets allowed :
  filterAllowedSnippets minimatch heap snippets allowed =
  filter (λ x, x ∈ required_loop heap snippets
                     (matched_loop minimatch heap allowed snippets []))
         snippets.
Proof.
  unfold filterAllowedSnippets. rewrite delete_loop_filter.
  apply filter_ext_elem. intros x Hx. tauto.
Qed.

Lemma filterAllowedSnippets_elem snippets allowed x :
  x ∈ filterAllowedSnippets minimatch heap snippets allowed ↔
  x ∈ required_loop heap snippets (matched_loop minimatch heap allowed snippets []).
Proof.
  rewrite filterAllowedSnippets_filter, list_elem_of_filter. split; [tauto|].
  intros Hx. split; [done|].
  apply required_loop_subset in Hx as [Hx|Hx]; [|done].
  apply matched_loop_elem in Hx as [Hx|[Hx _]]; [by apply elem_of_nil in Hx|done].
Qed.

End SnippetFilter.

(** X16.  [filterAllowedSnippets] only removes: what stays is a
    subsequence of the snippets given, and every snippet that stays has
    a name accepted by some pattern or is required for a snippet that
    stays. *)
Theorem filterAllowedSnippets_sound (minimatch : jsstring → jsstring → bool)
    (heap : nat → Snippets.Snippet) (snippets : list nat) (allowed : list jsstring) :
  let kept := Snippets.filterAllowedSnippets minimatch heap snippets allowed in
  kept `sublist_of` snippets ∧
  ∀ d, d ∈ kept →
    name_allowed minimatch allowed (Snippets.snippetName (heap d)) ∨
    ∃ r, Snippets.requiredFor (heap d) = Some r ∧ r ∈ kept.
Proof.
  simpl. split.
  - rewrite filterAllowedSnippets_filter. apply sublist_filter.
  - intros d Hd. apply filterAllowedSnippets_elem in Hd.
    apply required_loop_origin in Hd as [Hd | [_ (r & Hr & Hin)]].
    + left. apply matched_loop_elem in Hd as [Hd|[_ Hd]]; [|done].
      by apply elem_of_nil in Hd.
    + right. exists r. split; [done|]. by apply filterAllowedSnippets_elem.
Qed.

(** X17.  A snippet whose name a pattern accepts stays, and so does a
    snippet required for such a snippet. *)
Theorem filterAllowedSnippets_complete (minimatch : jsstring → jsstring → bool)
    (heap : nat → Snippets.Snippet) (snippets : list nat) (allowed : list jsstring)
    (d : nat) :
  d ∈ snippets →
  name_allowed minimatch allowed (Snippets.snippetName (heap d)) ∨
  (∃ r, Snippets.requiredFor (heap d) = Some r ∧ r ∈ snippets ∧
        name_allowed minimatch allowed (Snippets.snippetName (heap r))) →
  d ∈ Snippets.filterAllowedSnippets minimatch heap snippets allowed.
Proof.
  intros Hd H. apply filterAllowedSnippets_elem. destruct H as [H | (r & Hr & Hin & H)].
  - apply required_loop_mono, matched_loop_elem. by right.
  - apply (required_loop_direct heap _ _ d r); [done..|].
    apply matched_loop_elem. by right.
Qed.

Lemma filterAllowedSnippets_complete_witness :
  let heap := λ r : nat,
    match r with
    | 0%nat => Snippets.mkSnippet (str "build-editor") (Some 1%nat)
    | 1%nat => Snippets.mkSnippet (str "features/emoji") None
    | _ => Snippets.mkSnippet (str "other") None
    end in
  let minimatch := λ _ _ : jsstring, false in
  let snippets := [0%nat; 1%nat; 2%nat] in
  (0%nat ∈ snippets ∧
   ∃ r, Snippets.requiredFor (heap 0%nat) = Some r ∧ r ∈ snippets ∧
        name_allowed minimatch [str "emoji"] (Snippets.snippetName (heap r))) ∧
  0%nat ∈ Snippets.filterAllowedSnippets minimatch heap snippets [str "emoji"].
Proof.
  intros heap minimatch snippets.
  assert (0%nat ∈ snippets) as Hd by (by left).
  assert (∃ r, Snippets.requiredFor (heap 0%nat) = Some r ∧ r ∈ snippets ∧
               name_allowed minimatch [str "emoji"] (Snippets.snippetName (heap r)))
    as Hreq.
  { exists 1%nat. split_and!; [done|by right; left|].
    exists (str "emoji"). split; [by left|]. right.
    by exists (str "features/"), []. }
  split; [by split|].
  exact (filterAllowedSnippets_complete minimatch heap snippets [str "emoji"] 0%nat
           Hd (or_intror Hreq)).
Defined.

(** X18.  The second loop runs once, in the order of the set: a
    snippet required for a snippet that stays stays too when that
    snippet comes earlier in [snippets]. *)
Theorem filterAllowedSnippets_required_later (minimatch : jsstring → jsstring → bool)
    (heap : nat → Snippets.Snippet) (before after : list nat) (allowed : list jsstring)
    (d r : nat) :
  let snippets := before ++ d :: after in
  NoDup snippets →
  r ∈ before →
  Snippets.requiredFor (heap d) = Some r →
  r ∈ Snippets.filterAllowedSnippets minimatch heap snippets allowed →
  d ∈ Snippets.filterAllowedSnippets minimatch heap snippets allowed.
Proof.
  simpl. intros Hnd Hr Hreq Hkept.
  apply filterAllowedSnippets_elem in Hkept. apply filterAllowedSnippets_elem.
  rewrite required_loop_app in *.
  apply required_loop_subset in Hkept as [Hkept|Hkept].
  - apply (required_loop_direct heap _ _ d r); [by left|done..].
  - apply NoDup_app in Hnd as (_ & Hdis & _). by destruct (Hdis r Hr).
Qed.

Lemma filterAllowedSnippets_required_later_witness :
  let heap := λ r : nat,
    match r with
    | 0%nat => Snippets.mkSnippet (str "a") (Some 1%nat)
    | 1%nat => Snippets.mkSnippet (str "b") (Some 2%nat)
    | _ => Snippets.mkSnippet (str "emoji") None
    end in
  let minimatch := λ _ _ : jsstring, false in
  (NoDup [2%nat; 1%nat; 0%nat] ∧ 1%nat ∈ [2%nat; 1%nat] ∧
   Snippets.requiredFor (heap 0%nat) = Some 1%nat ∧
   1%nat ∈ Snippets.filterAllowedSnippets minimatch heap [2%nat; 1%nat; 0%nat]
             [str "emoji"]) ∧
  0%nat ∈ Snippets.filterAllowedSnippets minimatch heap [2%nat; 1%nat; 0%nat]
            [str "emoji"].
Proof.
  intros heap minimatch.
  assert (NoDup [2%nat; 1%nat; 0%nat]) as Hnd.
  { apply (bool_decide_unpack _). by vm_compute. }
  assert (1%nat ∈ [2%nat; 1%nat]) as Hr by (right; left).
  assert (1%nat ∈ Snippets.filterAllowedSnippets minimatch heap [2%nat; 1%nat; 0%nat]
                    [str "emoji"]) as Hkept.
  { apply (bool_decide_unpack _). by vm_compute. }
  split; [by split_and!|].
  exact (filterAllowedSnippets_required_later minimatch heap [2%nat; 1%nat] []
           [str "emoji"] 0%nat 1%nat Hnd Hr eq_refl Hkept).
Defined.

(** In the opposite order the chain is cut: [0] is required for [1],
    which is required for the matching [2]; [0] is visited before [1]
    is chosen, and is removed. *)
Example filterAllowedSnippets_chain_order :
  let heap := λ r : nat,
    match r with
    | 0%nat => Snippets.mkSnippet (str "a") (Some 1%nat)
    | 1%nat => Snippets.mkSnippet (str "b") (Some 2%nat)
    | _ => Snippets.mkSnippet (str "emoji") None
    end in
  let minimatch := λ _ _ : jsstring, false in
  Snippets.filterAllowedSnippets minimatch heap [0%nat; 1%nat; 2%nat] [str "emoji"] =
    [1%nat; 2%nat] ∧
  Snippets.filterAllowedSnippets minimatch heap [2%nat; 1%nat; 0%nat] [str "emoji"] =
    [2%nat; 1%nat; 0%nat].
Proof. by vm_compute. Qed.

Section SnippetEdges.

Import Snippets.

Context (minimatch : jsstring → jsstring → bool) (heap : nat → Snippet).

Lemma required_loop_nil (todo : list nat) : required_loop heap todo [] = [].
Proof.
  induction todo as [|d todo IH]; simpl; [done|].
  by destruct (requiredFor (heap d)).
Qed.

Lemma matched_loop_no_pattern (todo : list nat) :
  matched_loop minimatch heap [] todo [] = [].
Proof. by induction todo. Qed.

Lemma filter_all (P : nat → Prop) `{!∀ x, Decision (P x)} (l : list nat) :
  (∀ x, x ∈ l → P x) → filter P l = l.
Proof.
  induction l as [|y l IH]; intros Hall; [done|].
  rewrite filter_cons_True by (apply Hall; by left).
  rewrite IH; [done|]. intros x Hx. apply Hall. by right.
Qed.

Lemma filter_none (P : nat → Prop) `{!∀ x, Decision (P x)} (l : list nat) :
  (∀ x, x ∈ l → ¬ P x) → filter P l = [].
Proof.
  induction l as [|y l IH]; intros Hnone; [done|].
  rewrite filter_cons_False by (apply Hnone; by left).
  apply IH. intros x Hx. apply Hnone. by right.
Qed.

End SnippetEdges.

(** X19.  Without any pattern the filter removes every snippet, which
    is why [snippetAdapter] calls it only for a non-empty array and
    builds all snippets otherwise; with the empty string among the
    patterns the filter keeps every snippet, since the empty string
    occurs in every name. *)
Theorem filterAllowedSnippets_no_pattern (minimatch : jsstring → jsstring → bool)
    (heap : nat → Snippets.Snippet) (snippets : list nat) (allowed : list jsstring) :
  Snippets.filterAllowedSnippets minimatch heap snippets [] = [] ∧
  Snippets.snippetAdapter_filter minimatch heap snippets None = snippets ∧
  Snippets.snippetAdapter_filter minimatch heap snippets (Some []) = snippets ∧
  ([] ∈ allowed →
   Snippets.filterAllowedSnippets minimatch heap snippets allowed = snippets ∧
   Snippets.snippetAdapter_filter minimatch heap snippets (Some allowed) = snippets).
Proof.
  split_and!; [|done|done|].
  - rewrite filterAllowedSnippets_filter, matched_loop_no_pattern, required_loop_nil.
    apply filter_none. intros x _. apply not_elem_of_nil.
  - intros Hempty.
    assert (Snippets.filterAllowedSnippets minimatch heap snippets allowed = snippets)
      as Hall.
    { rewrite filterAllowedSnippets_filter. apply filter_all. intros x Hx.
      apply required_loop_mono, matched_loop_elem. right. split; [done|].
      exists []. split; [done|]. right.
      by exists [], (Snippets.snippetName (heap x)). }
    split; [done|]. by destruct allowed.
Qed.

Lemma filterAllowedSnippets_no_pattern_witness :
  let heap := λ _ : nat, Snippets.mkSnippet (str "emoji") None in
  let minimatch := λ _ _ : jsstring, false in
  ([] ∈ [str "table"; str ""]) ∧
  Snippets.filterAllowedSnippets minimatch heap [0%nat; 1%nat] [str "table"; str ""] =
    [0%nat; 1%nat].
Proof.
  intros heap minimatch.
  assert ([] ∈ [str "table"; str ""]) as Hempty by (right; left).
  split; [exact Hempty|].
  destruct (filterAllowedSnippets_no_pattern minimatch heap [0%nat; 1%nat]
              [str "table"; str ""]) as (_ & _ & _ & H).
  exact (proj1 (H Hempty)).
Defined.

(** * Parsing concatenations and padded patterns *)

Section Concat.

Implicit Types (s acc tokens : list jsstring) (v w x : jsstring) (c : N).

Lemma set_loop_app tokens1 tokens2 s :
  set_loop s (tokens1 ++ tokens2) = set_loop (set_loop s tokens1) tokens2.
Proof.
  revert s. induction tokens1 as [|x tokens1 IH]; intros s; simpl; [done|].
  by destruct (truthy x).
Qed.

Lemma set_loop_cons x tokens s :
  set_loop s (x :: tokens) = set_loop (set_loop s [x]) tokens.
Proof. apply (set_loop_app [x]). Qed.

Lemma skip_ws_skip_app v1 v2 : skip_ws (skip_ws v1 ++ v2) = skip_ws (v1 ++ v2).
Proof.
  induction v1 as [|c v1 IH]; simpl; [done|].
  destruct (is_whitespace c) eqn:Hc; [done|]. simpl. by rewrite Hc.
Qed.

Lemma skip_ws_app v1 v2 :
  skip_ws (v1 ++ v2) =
    match skip_ws v1 with [] => skip_ws v2 | _ :: _ => skip_ws v1 ++ v2 end.
Proof.
  induction v1 as [|c v1 IH]; simpl; [done|].
  destruct (is_whitespace c); [done|]. done.
Qed.

Lemma set_loop_skip_ws v s :
  set_loop s (split_ws (skip_ws v)) = set_loop s (split_ws v).
Proof.
  destruct v as [|c v]; simpl; [done|].
  destruct (is_whitespace c) eqn:Hc; [|done].
  pose proof (split_ws_word_sep [] c v ltac:(constructor) Hc) as E.
  simpl in E. by rewrite E.
Qed.

Lemma set_loop_concat v1 c v2 s :
  is_whitespace c = true →
  set_loop s (split_ws (v1 ++ c :: v2)) =
  set_loop (set_loop s (split_ws v1)) (split_ws v2).
Proof.
  intros Hc. revert s.
  induction v1 as [w Hw | w c' v1 Hw Hc' IH] using split_ws_ind; intros s.
  - rewrite split_ws_word_sep, (split_ws_word w) by done.
    rewrite set_loop_cons. by rewrite set_loop_skip_ws.
  - rewrite <- app_assoc. simpl. rewrite !split_ws_word_sep by done.
    rewrite (set_loop_cons w (split_ws (skip_ws (v1 ++ c :: v2)))).
    rewrite (set_loop_cons w (split_ws (skip_ws v1))).
    rewrite <- skip_ws_skip_app, set_loop_skip_ws. apply IH.
Qed.

Lemma set_loop_set_loop tokens acc s :
  set_loop s (set_loop acc tokens) = set_loop (set_loop s acc) tokens.
Proof.
  revert acc. induction tokens as [|x tokens IH]; intros acc; simpl; [done|].
  destruct (truthy x) eqn:Hx; [|apply IH]. rewrite IH. f_equal.
  unfold Set_add at 1. destruct (Set_has acc x) eqn:E.
  - apply Set_has_true in E. rewrite Set_add_present; [done|].
    apply set_loop_elem. right. split; [done|]. by apply truthy_true.
  - rewrite set_loop_app. simpl. by rewrite Hx.
Qed.


Lemma split_ws_not_nil v : split_ws v ≠ [].
Proof.
  destruct (first_sep v) as [Hv | (w & c & s & -> & Hw & Hc)].
  - by rewrite split_ws_word.
  - by rewrite split_ws_word_sep.
Qed.

Lemma split_ws_trailing v c :
  is_whitespace c = true → [] ∈ split_ws (v ++ [c]).
Proof.
  intros Hc. induction v as [w Hw | w c' v Hw Hc' IH] using split_ws_ind.
  - rewrite split_ws_word_sep by done. right. by left.
  - rewrite <- app_assoc. simpl. rewrite split_ws_word_sep by done. right.
    rewrite skip_ws_app. destruct (skip_ws v) as [|d v'] eqn:E.
    + simpl. rewrite Hc. by left.
    + apply IH.
Qed.

Lemma join_sp_snoc tokens x :
  tokens ≠ [] → join_sp (tokens ++ [x]) = join_sp tokens ++ 32 :: x.
Proof.
  induction tokens as [|y tokens IH]; intros Hne; [done|].
  destruct tokens as [|z tokens]; [done|].
  change (join_sp ((y :: z :: tokens) ++ [x]))
    with (y ++ 32 :: join_sp ((z :: tokens) ++ [x])).
  rewrite IH by done. simpl. by rewrite <- app_assoc.
Qed.

End Concat.

(** X20.  Parsing two strings joined by a whitespace character is
    parsing the first and merging the parse of the second into it; in
    particular whitespace in front of or behind the value changes
    nothing. *)
Theorem setTo_concat (l l' : TokenList.t) (v1 v2 : jsstring) (c : N) :
  is_whitespace c = true →
  setTo l (v1 ++ c :: v2) = _mergeFrom (setTo l v1) (setTo l' v2) ∧
  setTo l (c :: v2) = setTo l v2 ∧
  setTo l (v1 ++ [c]) = setTo l v1.
Proof.
  intros Hc. unfold setTo, _mergeFrom. simpl.
  rewrite (setTo_loop_set_loop [] (split_ws (v1 ++ c :: v2))).
  rewrite (setTo_loop_set_loop [] (split_ws (c :: v2))).
  rewrite (setTo_loop_set_loop [] (split_ws (v1 ++ [c]))).
  rewrite (setTo_loop_set_loop [] (split_ws v1)).
  rewrite (setTo_loop_set_loop [] (split_ws v2)).
  split_and!; f_equal.
  - rewrite set_loop_concat by done. rewrite mergeFrom_loop_set_loop.
    + by rewrite set_loop_set_loop.
    + rewrite <- (setTo_keys new v2). apply setTo_nonempty.
  - by rewrite (set_loop_concat [] c v2).
  - by rewrite (set_loop_concat v1 c []).
Qed.

Lemma setTo_concat_witness :
  let v1 := str "b a" in
  let v2 := str "c  a" in
  is_whitespace 9 = true ∧
  setTo new (v1 ++ 9 :: v2) = _mergeFrom (setTo new v1) (setTo new v2) ∧
  setTo new (9 :: v2) = setTo new v2 ∧
  setTo new (v1 ++ [9]) = setTo new v1.
Proof.
  split; [reflexivity|].
  exact (setTo_concat new new (str "b a") (str "c  a") 9 eq_refl).
Defined.

(** X21.  Adding one new token appends it to the printed form after a
    single space, or makes it the whole printed form of a list that
    was empty. *)
Theorem toString_set (l : TokenList.t) (x : jsstring) :
  has l x = false → x ≠ [] →
  toString (set l (Item x)) =
    if isEmpty l then x else toString l ++ 32 :: x.
Proof.
  destruct l as [s]. unfold has, set, toString, isEmpty. simpl.
  intros Hx Hne. apply truthy_true in Hne. rewrite Hne.
  unfold Set_add. rewrite Hx. destruct s as [|y s]; [done|].
  by rewrite join_sp_snoc.
Qed.

Lemma toString_set_witness :
  let l := setTo new (str "a b") in
  (has l (str "c") = false ∧ str "c" ≠ []) ∧
  toString (set l (Item (str "c"))) = str "a b c".
Proof.
  split; [split; [reflexivity|discriminate]|].
  exact (toString_set (setTo new (str "a b")) (str "c") eq_refl ltac:(discriminate)).
Defined.

(** X22.  [_getTokensMatch] returns an empty array in one case only:
    the pattern [true] on an empty token list.  A string pattern and a
    regular expression give [undefined] or at least one pair. *)
Theorem getTokensMatch_empty_array (l : TokenList.t) (k : jsstring) (pattern : Pattern) :
  _getTokensMatch l k pattern = Some [] ↔ pattern = PTrue ∧ isEmpty l = true.
Proof.
  destruct pattern as [|p|r]; simpl.
  - rewrite match_all_map. unfold isEmpty. simpl.
    destruct (_set l); simpl; split; (done || by intros [_ ?]).
  - split; [|by intros [? _]]. intros H.
    destruct (decide (Forall (λ x, x ∈ keys l) (split_ws p))) as [HF|HF].
    + rewrite match_string_all in H by done. simpl in H.
      pose proof (split_ws_not_nil p). by destruct (split_ws p).
    + by rewrite match_string_some_absent in H.
  - split; [|by intros [? _]].
    by destruct (match_regexp r k (_set l) []).1.
Qed.

(** X23.  On a token list built by the public operations, a string
    pattern that begins or ends with a whitespace character is never
    matched, whatever is stored: the pattern has to be trimmed by the
    caller. *)
Theorem getTokensMatch_padded_pattern (l : TokenList.t) (k p : jsstring) (c : N) :
  Reachable any_token l → is_whitespace c = true →
  _getTokensMatch l k (PString (c :: p)) = None ∧
  _getTokensMatch l k (PString (p ++ [c])) = None.
Proof.
  intros Hl Hc.
  pose proof (reachable_no_empty_token any_token l Hl) as Hempty.
  split; simpl; apply match_string_some_absent; rewrite Forall_forall; intros HF;
    apply Hempty, HF.
  - pose proof (split_ws_word_sep [] c p ltac:(constructor) Hc) as E.
    simpl in E. rewrite E. by left.
  - by apply split_ws_trailing.
Qed.

Lemma getTokensMatch_padded_pattern_witness :
  let l := setTo new (str "a b") in
  (Reachable any_token l ∧ is_whitespace 32 = true) ∧
  _getTokensMatch l (str "class") (PString (str " a")) = None ∧
  _getTokensMatch l (str "class") (PString (str "a ")) = None.
Proof.
  assert (Reachable any_token (setTo new (str "a b"))) as Hl.
  { apply Reachable_setTo, Reachable_new. }
  split; [by split|].
  exact (getTokensMatch_padded_pattern _ (str "class") (str "a") 32 Hl eq_refl).
Defined.
